(** * Arkanoid (SDL2 example): entity store and collision resolution

    A shallow embedding of [arkanoid.cpp]: the geometry of shapes, the
    gameplay entities (Ball, Paddle, Brick), the collision module, the
    entity [Manager] and [Game::restart], followed by the properties the
    specification states about them.

    C++ [float] is IEEE 754 binary32; it is modelled by the Standard
    Library's executable specification of binary floats ([spec_float])
    at precision 24 and maximal exponent 128.  C++ [int] is modelled by
    [Z] with the 32-bit wrap-around written out. *)

From Stdlib Require Import ZArith Bool Lia.
From Stdlib Require Import Floats.SpecFloat.
From stdpp Require Import base option list numbers gmap fin_maps.

Local Open Scope Z_scope.

(** ** 32-bit signed integers ([int]) *)

Module Int.

Definition min_int : Z := - 2 ^ 31.
Definition max_int : Z := 2 ^ 31 - 1.

(** Reduction of a mathematical integer into the range of [int]. *)
Definition wrap (z : Z) : Z := (z + 2 ^ 31) mod 2 ^ 32 - 2 ^ 31.

Definition in_range (z : Z) : Prop := min_int <= z <= max_int.

Definition add (a b : Z) : Z := wrap (a + b).
Definition sub (a b : Z) : Z := wrap (a - b).
Definition mul (a b : Z) : Z := wrap (a * b).
(** [%] truncates towards zero in C++. *)
Definition rem (a b : Z) : Z := wrap (Z.rem a b).

End Int.

(** ** binary32 floating point ([float]) *)

Module F32.

Definition prec : Z := 24.
Definition emax : Z := 128.

Abbreviation f32 := spec_float.

(** Conversion of an [int] (and of an integral literal such as [8.f]),
    rounding to nearest even. *)
Definition of_int (z : Z) : f32 := binary_normalize prec emax z 0 false.

Definition add : f32 -> f32 -> f32 := SFadd prec emax.
Definition sub : f32 -> f32 -> f32 := SFsub prec emax.
Definition mul : f32 -> f32 -> f32 := SFmul prec emax.
Definition div : f32 -> f32 -> f32 := SFdiv prec emax.
Definition neg : f32 -> f32 := SFopp.
Definition abs : f32 -> f32 := SFabs.

Definition eqb : f32 -> f32 -> bool := SFeqb.
Definition ltb : f32 -> f32 -> bool := SFltb.
Definition leb : f32 -> f32 -> bool := SFleb.
Definition gtb (a b : f32) : bool :=
  match SFcompare a b with Some Gt => true | _ => false end.
Definition geb (a b : f32) : bool :=
  match SFcompare a b with Some (Gt | Eq) => true | _ => false end.

End F32.

Declare Scope f32_scope.
Delimit Scope f32_scope with f32.
Abbreviation f32 := spec_float.
Infix "+" := F32.add : f32_scope.
Infix "-" := F32.sub : f32_scope.
Infix "*" := F32.mul : f32_scope.
Infix "/" := F32.div : f32_scope.
Notation "- x" := (F32.neg x) : f32_scope.
Infix "<?" := F32.ltb : f32_scope.
Infix "<=?" := F32.leb : f32_scope.
Infix ">?" := F32.gtb : f32_scope.
Infix ">=?" := F32.geb : f32_scope.
Infix "=?" := F32.eqb : f32_scope.
(** [#f n] is the float literal [n.f], and the conversion of the [int] [n]. *)
Notation "'#f' n" := (F32.of_int n%Z) (at level 1, n at level 0, format "#f n").

(** ** SDL value types and the globals of the program *)

Record SDL_Color := { col_r : Z; col_g : Z; col_b : Z; col_a : Z }.
Record SDL_Rect := { rect_x : Z; rect_y : Z; rect_w : Z; rect_h : Z }.

Definition gScreenRect : SDL_Rect :=
  {| rect_x := 0; rect_y := 0; rect_w := 800; rect_h := 600 |}.

(** ** Geometry *)

Record Vector2f := { vec_x : f32; vec_y : f32 }.

(** [fillColor] is [None] while the member is still uninitialised (the
    constructor of [Brick] leaves it so until the first [update]). *)
Record Shape := {
  pos_x : f32; pos_y : f32;
  originX : f32; originY : f32;
  fillColor : option SDL_Color
}.

Definition move (vel : Vector2f) (s : Shape) : Shape :=
  {| pos_x := (pos_x s + vec_x vel)%f32; pos_y := (pos_y s + vec_y vel)%f32;
     originX := originX s; originY := originY s; fillColor := fillColor s |}.

Record Rectangle := { rect_shape : Shape; rect_width : f32; rect_height : f32 }.
Record Circle := { circ_shape : Shape; radius : f32 }.

(** The four edge queries every argument of [isIntersecting] provides. *)
Class Extent (T : Type) := {
  left : T -> f32;
  right : T -> f32;
  top : T -> f32;
  bottom : T -> f32
}.

#[export] Instance Rectangle_extent : Extent Rectangle := {|
  left r := (pos_x (rect_shape r) - rect_width r / #f 2)%f32;
  right r := (pos_x (rect_shape r) + rect_width r / #f 2)%f32;
  top r := (pos_y (rect_shape r) - rect_height r / #f 2)%f32;
  bottom r := (pos_y (rect_shape r) + rect_height r / #f 2)%f32
|}.

#[export] Instance Circle_extent : Extent Circle := {|
  left c := (pos_x (circ_shape c) - radius c)%f32;
  right c := (pos_x (circ_shape c) + radius c)%f32;
  top c := (pos_y (circ_shape c) - radius c)%f32;
  bottom c := (pos_y (circ_shape c) + radius c)%f32
|}.

(** ** Gameplay entities *)

Record Ball := {
  ball_destroyed : bool;
  ball_circle : Circle;
  ball_velocity : Vector2f
}.

Record Paddle := {
  paddle_destroyed : bool;
  paddle_rect : Rectangle;
  paddle_velocity : Vector2f
}.

Record Brick := {
  brick_destroyed : bool;
  brick_rect : Rectangle;
  requiredHits : Z
}.

#[export] Instance Ball_extent : Extent Ball := {|
  left b := left (ball_circle b); right b := right (ball_circle b);
  top b := top (ball_circle b); bottom b := bottom (ball_circle b)
|}.

#[export] Instance Paddle_extent : Extent Paddle := {|
  left p := left (paddle_rect p); right p := right (paddle_rect p);
  top p := top (paddle_rect p); bottom p := bottom (paddle_rect p)
|}.

#[export] Instance Brick_extent : Extent Brick := {|
  left b := left (brick_rect b); right b := right (brick_rect b);
  top b := top (brick_rect b); bottom b := bottom (brick_rect b)
|}.

Module BallC.
Definition defColor : SDL_Color :=
  {| col_r := 255; col_g := 0; col_b := 0; col_a := 255 |}.
Definition defRadius : f32 := #f 10.
Definition defVelocity : f32 := #f 8.

(** [Ball( float mX, float mY )] *)
Definition new (mX mY : f32) : Ball :=
  {| ball_destroyed := false;
     ball_circle :=
       {| circ_shape :=
            {| pos_x := mX; pos_y := mY;
               originX := defRadius; originY := defRadius;
               fillColor := Some defColor |};
          radius := defRadius |};
     ball_velocity := {| vec_x := (- defVelocity)%f32;
                         vec_y := (- defVelocity)%f32 |} |}.
End BallC.

Module PaddleC.
Definition defColor : SDL_Color :=
  {| col_r := 255; col_g := 0; col_b := 0; col_a := 255 |}.
Definition defWidth : f32 := #f 60.
Definition defHeight : f32 := #f 20.
Definition defVelocity : f32 := #f 8.

(** [Paddle( float mX, float mY )] *)
Definition new (mX mY : f32) : Paddle :=
  {| paddle_destroyed := false;
     paddle_rect :=
       {| rect_shape :=
            {| pos_x := mX; pos_y := mY;
               originX := (defWidth / #f 2)%f32;
               originY := (defHeight / #f 2)%f32;
               fillColor := Some defColor |};
          rect_width := defWidth; rect_height := defHeight |};
     paddle_velocity := {| vec_x := #f 0; vec_y := #f 0 |} |}.
End PaddleC.

Module BrickC.
Definition defWidth : f32 := #f 60.
Definition defHeight : f32 := #f 20.
Definition defVelocity : f32 := #f 8.

(** [Brick( float mX, float mY )]: one required hit, no fill colour yet. *)
Definition new (mX mY : f32) : Brick :=
  {| brick_destroyed := false;
     brick_rect :=
       {| rect_shape :=
            {| pos_x := mX; pos_y := mY;
               originX := (defWidth / #f 2)%f32;
               originY := (defHeight / #f 2)%f32;
               fillColor := None |};
          rect_width := defWidth; rect_height := defHeight |};
     requiredHits := 1 |}.
End BrickC.

(** *** Field updates through a reference *)

Definition ball_set_velocity_x (v : f32) (b : Ball) : Ball :=
  {| ball_destroyed := ball_destroyed b; ball_circle := ball_circle b;
     ball_velocity := {| vec_x := v; vec_y := vec_y (ball_velocity b) |} |}.

Definition ball_set_velocity_y (v : f32) (b : Ball) : Ball :=
  {| ball_destroyed := ball_destroyed b; ball_circle := ball_circle b;
     ball_velocity := {| vec_x := vec_x (ball_velocity b); vec_y := v |} |}.

Definition ball_set_destroyed (d : bool) (b : Ball) : Ball :=
  {| ball_destroyed := d; ball_circle := ball_circle b;
     ball_velocity := ball_velocity b |}.

Definition ball_move (b : Ball) : Ball :=
  {| ball_destroyed := ball_destroyed b;
     ball_circle :=
       {| circ_shape := move (ball_velocity b) (circ_shape (ball_circle b));
          radius := radius (ball_circle b) |};
     ball_velocity := ball_velocity b |}.

Definition brick_set_requiredHits (n : Z) (b : Brick) : Brick :=
  {| brick_destroyed := brick_destroyed b; brick_rect := brick_rect b;
     requiredHits := n |}.

Definition brick_set_destroyed (d : bool) (b : Brick) : Brick :=
  {| brick_destroyed := d; brick_rect := brick_rect b;
     requiredHits := requiredHits b |}.

(** *** [Ball::solveBoundCollisions] and [Ball::update] *)

Definition solveBoundCollisions (b : Ball) : Ball :=
  let b :=
    if (left b <? #f 0)%f32 then ball_set_velocity_x BallC.defVelocity b
    else if (right b >? #f (rect_w gScreenRect))%f32
         then ball_set_velocity_x (- BallC.defVelocity)%f32 b
         else b in
  if (top b <? #f 0)%f32 then ball_set_velocity_y BallC.defVelocity b
  else if (bottom b >? #f (rect_h gScreenRect))%f32
       then ball_set_destroyed true b
       else b.

Definition Ball_update (b : Ball) : Ball := solveBoundCollisions (ball_move b).

(** ** Collision module *)

Definition isIntersecting {T1 T2} `{Extent T1} `{Extent T2}
    (mA : T1) (mB : T2) : bool :=
  (right mA >=? left mB)%f32 && (left mA <=? right mB)%f32 &&
  (bottom mA >=? top mB)%f32 && (top mA <=? bottom mB)%f32.

Definition solvePaddleBallCollision (mPaddle : Paddle) (mBall : Ball) : Ball :=
  if negb (isIntersecting mPaddle mBall) then mBall
  else
    let mBall := ball_set_velocity_y (- BallC.defVelocity)%f32 mBall in
    ball_set_velocity_x
      (if (pos_x (circ_shape (ball_circle mBall)) <?
           pos_x (rect_shape (paddle_rect mPaddle)))%f32
       then (- BallC.defVelocity)%f32 else BallC.defVelocity)
      mBall.

(** The locals of [solveBrickBallCollision]. *)
Definition overlapLeft (mBrick : Brick) (mBall : Ball) : f32 :=
  (right mBall - left mBrick)%f32.
Definition overlapRight (mBrick : Brick) (mBall : Ball) : f32 :=
  (right mBrick - left mBall)%f32.
Definition overlapTop (mBrick : Brick) (mBall : Ball) : f32 :=
  (bottom mBall - top mBrick)%f32.
Definition overlapBottom (mBrick : Brick) (mBall : Ball) : f32 :=
  (bottom mBrick - top mBall)%f32.

Definition ballFromLeft (mBrick : Brick) (mBall : Ball) : bool :=
  (F32.abs (overlapLeft mBrick mBall) <? F32.abs (overlapRight mBrick mBall))%f32.
Definition ballFromTop (mBrick : Brick) (mBall : Ball) : bool :=
  (F32.abs (overlapTop mBrick mBall) <? F32.abs (overlapBottom mBrick mBall))%f32.

Definition minOverlapX (mBrick : Brick) (mBall : Ball) : f32 :=
  if ballFromLeft mBrick mBall then overlapLeft mBrick mBall
  else overlapRight mBrick mBall.
Definition minOverlapY (mBrick : Brick) (mBall : Ball) : f32 :=
  if ballFromTop mBrick mBall then overlapTop mBrick mBall
  else overlapBottom mBrick mBall.

Definition solveBrickBallCollision (mBrick : Brick) (mBall : Ball)
    : Brick * Ball :=
  if negb (isIntersecting mBrick mBall) then (mBrick, mBall)
  else
    let mBrick :=
      brick_set_requiredHits (Int.sub (requiredHits mBrick) 1) mBrick in
    let mBrick :=
      if requiredHits mBrick <=? 0 then brick_set_destroyed true mBrick
      else mBrick in
    let mBall :=
      if (F32.abs (minOverlapX mBrick mBall) <?
          F32.abs (minOverlapY mBrick mBall))%f32
      then ball_set_velocity_x
             (if ballFromLeft mBrick mBall
              then (- BallC.defVelocity)%f32 else BallC.defVelocity) mBall
      else ball_set_velocity_y
             (if ballFromTop mBrick mBall
              then (- BallC.defVelocity)%f32 else BallC.defVelocity) mBall in
    (mBrick, mBall).

(** ** The entity store *)

(** The dynamic type of an entity, as [typeid] sees it. *)
Inductive TypeId := TBall | TPaddle | TBrick.

#[export] Instance TypeId_eq_dec : EqDecision TypeId.
Proof. solve_decision. Defined.

(** An object behind an [Entity*]. *)
Inductive Entity :=
| EBall (b : Ball)
| EPaddle (p : Paddle)
| EBrick (b : Brick).

Definition typeid (e : Entity) : TypeId :=
  match e with EBall _ => TBall | EPaddle _ => TPaddle | EBrick _ => TBrick end.

Definition destroyed (e : Entity) : bool :=
  match e with
  | EBall b => ball_destroyed b
  | EPaddle p => paddle_destroyed p
  | EBrick b => brick_destroyed b
  end.

(** Addresses of heap objects. *)
Abbreviation addr := N.

(** [entities] is the vector of owning pointers: each element is the
    address held by the [unique_ptr] together with the object it owns.
    [groupedEntities] maps a [std::size_t] key to a vector of
    non-owning pointers. *)
Record Manager := {
  entities : list (addr * Entity);
  groupedEntities : gmap N (list addr)
}.

Definition Manager_empty : Manager :=
  {| entities := []; groupedEntities := ∅ |}.

(** Dereferencing a pointer: the object owned under that address. *)
Fixpoint deref_in (es : list (addr * Entity)) (p : addr) : option Entity :=
  match es with
  | [] => None
  | (a, e) :: es => if decide (a = p) then Some e else deref_in es p
  end.

Definition deref (m : Manager) (p : addr) : option Entity :=
  deref_in (entities m) p.

(** [mPtr->destroyed]; pointers of a well-formed store never dangle
    (see [no_dangling]), for the others the flag reads as [false]. *)
Definition ptr_destroyed (m : Manager) (p : addr) : bool :=
  match deref m p with Some e => destroyed e | None => false end.

(** [Manager::refresh]: [erase (remove_if ...)] keeps, in order, the
    elements the predicate rejects; the grouped vectors are filtered
    first, while every object is still alive. *)
Definition refresh (m : Manager) : Manager :=
  let grouped :=
    (filter (λ p, ptr_destroyed m p = false)) <$> groupedEntities m in
  {| entities := filter (λ ae, destroyed ae.2 = false) (entities m);
     groupedEntities := grouped |}.

(** [Manager::clear] *)
Definition clear (m : Manager) : Manager :=
  {| entities := []; groupedEntities := ∅ |}.

(** Writing through a reference to the object at address [p]. *)
Definition store_in (p : addr) (f : Entity -> Entity)
    (es : list (addr * Entity)) : list (addr * Entity) :=
  (λ ae, if decide (ae.1 = p) then (ae.1, f ae.2) else ae) <$> es.

Definition store (p : addr) (f : Entity -> Entity) (m : Manager) : Manager :=
  {| entities := store_in p f (entities m);
     groupedEntities := groupedEntities m |}.

(** [make_unique] returns the address of a new object, distinct from
    the addresses of all live ones. *)
Definition new_addr (es : list (addr * Entity)) : addr := fresh (es.*1).

Definition emplace_back_entity (e : Entity) (es : list (addr * Entity))
    : list (addr * Entity) :=
  es ++ [(new_addr es, e)].

(** Every pointer of every grouped vector points to an owned object. *)
Definition no_dangling (m : Manager) : Prop :=
  map_Forall (λ _ v, Forall (λ p, p ∈ (entities m).*1) v) (groupedEntities m).

Section Store.

(** [typeid(T).hash_code()], a value of the C++ runtime. *)
Variable hash_code : TypeId -> N.

(** [Manager::create<T>( args )]; the object constructed from [args]
    is passed as [e].  Returns the reference and the new store. *)
Definition create (e : Entity) (m : Manager) : addr * Manager :=
  let ptr := new_addr (entities m) in
  let k := hash_code (typeid e) in
  (ptr,
   {| entities := emplace_back_entity e (entities m);
      groupedEntities :=
        <[k := default [] (groupedEntities m !! k) ++ [ptr]]>
          (groupedEntities m) |}).

(** [Manager::getAll<T>]: [operator[]] on the map, which inserts an
    empty vector under a key that is absent. *)
Definition getAll (T : TypeId) (m : Manager) : list addr * Manager :=
  let k := hash_code T in
  let v := default [] (groupedEntities m !! k) in
  (v, {| entities := entities m;
         groupedEntities := <[k := v]> (groupedEntities m) |}).

End Store.

(** ** The game: state and [restart] *)

Inductive State := Paused | GameOver | InProgress | Victory.

Record Game := {
  manager : Manager;
  state : State;
  pausePressedLastFrame : bool;
  remainingLives : Z
}.

(** [Game()]: the default member initialisers. *)
Definition Game_new : Game :=
  {| manager := Manager_empty; state := GameOver;
     pausePressedLastFrame := false; remainingLives := 0 |}.

Definition brkCountX : Z := 11.
Definition brkCountY : Z := 4.
Definition brkStartColumn : Z := 1.
Definition brkStartRow : Z := 2.
Definition brkSpacing : f32 := #f 3.
Definition brkOffsetX : f32 := #f 22.

(** [for (int i{ lo }; i < hi; ++i) body] *)
Definition for_range {S : Type} (lo hi : Z) (body : Z -> S -> S) (s : S) : S :=
  foldl (λ s i, body i s) s (seqZ lo (hi - lo)).

(** [brick.requiredHits = n] through the [Brick&] that [create] returned. *)
Definition assign_requiredHits (n : Z) (e : Entity) : Entity :=
  match e with
  | EBrick b => EBrick (brick_set_requiredHits n b)
  | _ => e
  end.

Section Restart.

Variable hash_code : TypeId -> N.

(** The body of the two nested loops of [restart]. *)
Definition restart_brick (iX iY : Z) (m : Manager) : Manager :=
  let x := (#f (Int.add iX brkStartColumn) *
            (BrickC.defWidth + brkSpacing))%f32 in
  let y := (#f (Int.add iY brkStartRow) *
            (BrickC.defHeight + brkSpacing))%f32 in
  let '(brick, m) :=
    create hash_code (EBrick (BrickC.new (brkOffsetX + x)%f32 y)) m in
  store brick
    (assign_requiredHits (Int.add 1 (Int.rem (Int.mul iX iY) 3))) m.

Definition restart (g : Game) : Game :=
  let m := clear (manager g) in
  let m :=
    for_range 0 brkCountX
      (λ iX, for_range 0 brkCountY (λ iY, restart_brick iX iY)) m in
  let m :=
    (create hash_code
       (EBall (BallC.new (#f (rect_w gScreenRect) / #f 2)%f32
                         (#f (rect_h gScreenRect) / #f 2)%f32)) m).2 in
  let m :=
    (create hash_code
       (EPaddle (PaddleC.new (#f (rect_w gScreenRect) / #f 2)%f32
                             (#f (rect_h gScreenRect) - #f 50)%f32)) m).2 in
  {| manager := m; state := Paused;
     pausePressedLastFrame := pausePressedLastFrame g;
     remainingLives := 3 |}.

End Restart.

(** A concrete assignment of hash codes, distinct for the three types. *)
Definition hash_code_example (T : TypeId) : N :=
  match T with TBall => 1%N | TPaddle => 2%N | TBrick => 3%N end.

(** ** Derived notions and sample values used in the statements *)

(** A ball that moves down onto the bottom edge: after [update] its
    centre is at (400, 590), so [bottom()] is 600. *)
Definition ball_landing_on_bottom_edge : Ball :=
  {| ball_destroyed := false;
     ball_circle :=
       {| circ_shape :=
            {| pos_x := #f 400; pos_y := #f 582;
               originX := BallC.defRadius; originY := BallC.defRadius;
               fillColor := Some BallC.defColor |};
          radius := BallC.defRadius |};
     ball_velocity := {| vec_x := #f 8; vec_y := #f 8 |} |}.

(** A ball that [update] leaves just above the boundary, at
    [bottom() == 599]. *)
Definition ball_above_bottom_edge : Ball :=
  {| ball_destroyed := false;
     ball_circle :=
       {| circ_shape :=
            {| pos_x := #f 400; pos_y := #f 581;
               originX := BallC.defRadius; originY := BallC.defRadius;
               fillColor := Some BallC.defColor |};
          radius := BallC.defRadius |};
     ball_velocity := {| vec_x := #f 8; vec_y := #f 8 |} |}.

(** The brick after a hit: one required hit less, destroyed once none
    is left; its rectangle is the same. *)
Definition brick_after_hit (mBrick : Brick) : Brick :=
  {| brick_destroyed :=
       brick_destroyed mBrick || (Int.sub (requiredHits mBrick) 1 <=? 0);
     brick_rect := brick_rect mBrick;
     requiredHits := Int.sub (requiredHits mBrick) 1 |}.

(** The ball after a hit, from the overlaps with the brick. *)
Definition ball_after_brick_hit (mBrick : Brick) (mBall : Ball) : Ball :=
  if (F32.abs (minOverlapX mBrick mBall) <?
      F32.abs (minOverlapY mBrick mBall))%f32
  then ball_set_velocity_x
         (if ballFromLeft mBrick mBall
          then (- BallC.defVelocity)%f32 else BallC.defVelocity) mBall
  else ball_set_velocity_y
         (if ballFromTop mBrick mBall
          then (- BallC.defVelocity)%f32 else BallC.defVelocity) mBall.

(** A brick centred at (100, 100), so with edges 70 / 130 / 90 / 110,
    and a ball of radius 10 with a given centre and velocity. *)
Definition brick_at_100_100 (hits : Z) : Brick :=
  brick_set_requiredHits hits (BrickC.new #f 100 #f 100).

Definition ball_at (x y vx vy : Z) : Ball :=
  {| ball_destroyed := false;
     ball_circle :=
       {| circ_shape :=
            {| pos_x := #f x; pos_y := #f y;
               originX := BallC.defRadius; originY := BallC.defRadius;
               fillColor := Some BallC.defColor |};
          radius := BallC.defRadius |};
     ball_velocity := {| vec_x := #f vx; vec_y := #f vy |} |}.

(** The paddle where [restart] puts it, centred at (400, 550). *)
Definition paddle_at_400_550 : Paddle := PaddleC.new #f 400 #f 550.

(** A rectangle and a circle with a given centre and size. *)
Definition rect_at (x y w h : Z) : Rectangle :=
  {| rect_shape := {| pos_x := #f x; pos_y := #f y;
                      originX := #f 0; originY := #f 0; fillColor := None |};
     rect_width := #f w; rect_height := #f h |}.

Definition circle_at (x y r : Z) : Circle :=
  {| circ_shape := {| pos_x := #f x; pos_y := #f y;
                      originX := #f 0; originY := #f 0; fillColor := None |};
     radius := #f r |}.

(** A store with a live ball (object 0) and a brick that a collision
    has just marked destroyed (object 1). *)
Definition store_with_dead_brick : Manager :=
  {| entities :=
       [(0%N, EBall (ball_at 65 95 8 8));
        (1%N, EBrick (brick_after_hit (brick_at_100_100 1)))];
     groupedEntities := <[1%N := [0%N]]> (<[3%N := [1%N]]> ∅) |}.

(** In every grouped view the store keeps, in creation order, the
    addresses of the owned objects of that type. *)
Definition views_match (hash_code : TypeId -> N) (m : Manager) : Prop :=
  forall T, (getAll hash_code T m).1 =
            (filter (λ ae, typeid ae.2 = T) (entities m)).*1.

(** What a pointer of the brick view reads as [requiredHits]. *)
Definition brick_hits (m : Manager) (p : addr) : option Z :=
  match deref m p with Some (EBrick b) => Some (requiredHits b) | _ => None end.

(** ** The rest of the entities, the store and the frame loop *)

Record SDL_Point := { point_x : Z; point_y : Z }.

(** [Brick::defColorHits1 .. 3] *)
Definition defColorHits1 : SDL_Color :=
  {| col_r := 255; col_g := 255; col_b := 0; col_a := 80 |}.
Definition defColorHits2 : SDL_Color :=
  {| col_r := 255; col_g := 255; col_b := 0; col_a := 170 |}.
Definition defColorHits3 : SDL_Color :=
  {| col_r := 255; col_g := 255; col_b := 0; col_a := 255 |}.

Definition rect_set_fillColor (c : SDL_Color) (r : Rectangle) : Rectangle :=
  {| rect_shape :=
       {| pos_x := pos_x (rect_shape r); pos_y := pos_y (rect_shape r);
          originX := originX (rect_shape r); originY := originY (rect_shape r);
          fillColor := Some c |};
     rect_width := rect_width r; rect_height := rect_height r |}.

(** [Brick::update] *)
Definition Brick_update (b : Brick) : Brick :=
  let c := if requiredHits b =? 1 then defColorHits1
           else if requiredHits b =? 2 then defColorHits2
           else defColorHits3 in
  {| brick_destroyed := brick_destroyed b;
     brick_rect := rect_set_fillColor c (brick_rect b);
     requiredHits := requiredHits b |}.

(** [Paddle::update]: [processPlayerInput] copies the horizontal touch
    coordinate (an [int]) into [x], then the paddle moves by its
    velocity. *)
Definition Paddle_update (gTouchLocation : SDL_Point) (p : Paddle) : Paddle :=
  let r := paddle_rect p in
  let s := rect_shape r in
  let s := {| pos_x := #f (point_x gTouchLocation); pos_y := pos_y s;
              originX := originX s; originY := originY s;
              fillColor := fillColor s |} in
  {| paddle_destroyed := paddle_destroyed p;
     paddle_rect := {| rect_shape := move (paddle_velocity p) s;
                       rect_width := rect_width r;
                       rect_height := rect_height r |};
     paddle_velocity := paddle_velocity p |}.

(** The virtual call [e->update()]. *)
Definition Entity_update (gTouchLocation : SDL_Point) (e : Entity) : Entity :=
  match e with
  | EBall b => EBall (Ball_update b)
  | EPaddle p => EPaddle (Paddle_update gTouchLocation p)
  | EBrick b => EBrick (Brick_update b)
  end.

(** [Manager::update] *)
Definition Manager_update (gTouchLocation : SDL_Point) (m : Manager) : Manager :=
  {| entities :=
       (λ ae, (ae.1, Entity_update gTouchLocation ae.2)) <$> entities m;
     groupedEntities := groupedEntities m |}.

(** The two collision calls on the objects behind a pair of pointers.
    A pointer of a view is cast to the type of the view; with a pointer
    that dangles or points to another type the call is undefined, and
    is modelled as doing nothing. *)
Definition collide_brick (pBrick pBall : addr) (m : Manager) : Manager :=
  match deref m pBrick, deref m pBall with
  | Some (EBrick mBrick), Some (EBall mBall) =>
      let '(mBrick, mBall) := solveBrickBallCollision mBrick mBall in
      store pBall (λ _, EBall mBall) (store pBrick (λ _, EBrick mBrick) m)
  | _, _ => m
  end.

Definition collide_paddle (pPaddle pBall : addr) (m : Manager) : Manager :=
  match deref m pPaddle, deref m pBall with
  | Some (EPaddle mPaddle), Some (EBall mBall) =>
      store pBall (λ _, EBall (solvePaddleBallCollision mPaddle mBall)) m
  | _, _ => m
  end.

(** What the frame loop reads from the keyboard and the touch screen. *)
Record Input := {
  key_P : bool;
  key_R : bool;
  gTouchTap : bool;
  gTouchLocation : SDL_Point
}.

Definition State_eqb (a b : State) : bool :=
  match a, b with
  | Paused, Paused | GameOver, GameOver
  | InProgress, InProgress | Victory, Victory => true
  | _, _ => false
  end.

Section Frame.

Variable hash_code : TypeId -> N.

(** [Manager::forEach<T>]: the callback receives the reference as the
    pointer it came from. *)
Definition forEach (T : TypeId) (mFunc : addr -> Manager -> Manager)
    (m : Manager) : Manager :=
  let '(v, m) := getAll hash_code T m in
  foldl (λ m ptr, mFunc ptr m) m v.

(** The nested [forEach] calls of the frame loop. *)
Definition collisions (m : Manager) : Manager :=
  forEach TBall
    (λ pBall m,
       let m := forEach TBrick (λ pBrick, collide_brick pBrick pBall) m in
       forEach TPaddle (λ pPaddle, collide_paddle pPaddle pBall) m)
    m.

(** The game logic of one pass through the loop of [Game::run] that
    Escape does not leave, block by block; rendering is left out. *)

(** [if (gCurrentKeyStates[SDL_SCANCODE_P] || gTouchTap) ... else ...] *)
Definition handle_pause (inp : Input) (g : Game) : Game :=
  if key_P inp || gTouchTap inp then
    {| manager := manager g;
       state := if negb (pausePressedLastFrame g)
                then (if State_eqb (state g) Paused then InProgress
                      else state g)
                else state g;
       pausePressedLastFrame := true;
       remainingLives := remainingLives g |}
  else
    {| manager := manager g; state := state g;
       pausePressedLastFrame := false;
       remainingLives := remainingLives g |}.

(** [if (gCurrentKeyStates[SDL_SCANCODE_R] ||
         (state == State::GameOver && gTouchTap)) restart();] *)
Definition handle_restart (inp : Input) (g : Game) : Game :=
  if key_R inp || (State_eqb (state g) GameOver && gTouchTap inp)
  then restart hash_code g else g.

(** The [else] branch of [if (state != State::InProgress)]: respawn,
    victory and game-over tests, [update], collisions, [refresh]. *)
Definition play (inp : Input) (g : Game) : Game :=
  let '(balls, m) := getAll hash_code TBall (manager g) in
  let '(m, lives) :=
    match balls with
    | [] =>
        ((create hash_code
            (EBall (BallC.new (#f (rect_w gScreenRect) / #f 2)%f32
                              (#f (rect_h gScreenRect) / #f 2)%f32)) m).2,
         Int.sub (remainingLives g) 1)
    | _ => (m, remainingLives g)
    end in
  let '(bricks, m) := getAll hash_code TBrick m in
  let st := match bricks with [] => Victory | _ => state g end in
  let st := if lives <=? 0 then GameOver else st in
  let m := Manager_update (gTouchLocation inp) m in
  let m := collisions m in
  let m := refresh m in
  {| manager := m; state := st;
     pausePressedLastFrame := pausePressedLastFrame g;
     remainingLives := lives |}.

Definition run_iteration (inp : Input) (g : Game) : Game :=
  let g := handle_pause inp g in
  let g := handle_restart inp g in
  if negb (State_eqb (state g) InProgress) then g
  else play inp g.

End Frame.

(** *** Notions used to state properties of the store and the loop *)

(** The representation invariant of the store: owned objects have
    distinct addresses, the grouped views agree with the master list,
    and no grouped pointer dangles. *)
Definition store_wf (hash_code : TypeId -> N) (m : Manager) : Prop :=
  NoDup (entities m).*1 /\ views_match hash_code m /\ no_dangling m.

(** The games [main] can reach: [Game()], then [restart] and passes
    through the loop of [run], in any order and with any input. *)
Inductive reachable (hash_code : TypeId -> N) : Game -> Prop :=
| reachable_new : reachable hash_code Game_new
| reachable_restart g :
    reachable hash_code g -> reachable hash_code (restart hash_code g)
| reachable_iteration inp g :
    reachable hash_code g -> reachable hash_code (run_iteration hash_code inp g).

(** A ball that moves along a diagonal, [defVelocity] on either axis. *)
Definition diagonal_speed (b : Ball) : Prop :=
  (vec_x (ball_velocity b) = BallC.defVelocity \/
   vec_x (ball_velocity b) = (- BallC.defVelocity)%f32) /\
  (vec_y (ball_velocity b) = BallC.defVelocity \/
   vec_y (ball_velocity b) = (- BallC.defVelocity)%f32).

(** What a collision call may change in an object: never its address
    (see [objects_related]), type or geometry; a ball keeps its
    [destroyed] flag, a paddle everything, and a brick that is marked
    destroyed stays so. *)
Definition collision_frame (e e' : Entity) : Prop :=
  match e, e' with
  | EBall b, EBall b' =>
      ball_circle b' = ball_circle b /\ ball_destroyed b' = ball_destroyed b
  | EPaddle p, EPaddle p' => p' = p
  | EBrick k, EBrick k' =>
      brick_rect k' = brick_rect k /\
      (brick_destroyed k = true -> brick_destroyed k' = true)
  | _, _ => False
  end.

(** Two master lists with the same addresses in the same order, whose
    objects are related one by one. *)
Definition objects_related (R : Entity -> Entity -> Prop)
    (es es' : list (addr * Entity)) : Prop :=
  Forall2 (λ ae ae', ae.1 = ae'.1 /\ R ae.2 ae'.2) es es'.

(** A store that only had objects written in place and missing view
    keys filled with empty vectors: the objects are related one by one
    and every view reads the same. *)
Definition evolves (R : Entity -> Entity -> Prop) (m m' : Manager) : Prop :=
  objects_related R (entities m) (entities m') /\
  forall k, groupedEntities m' !! k = groupedEntities m !! k \/
            (groupedEntities m !! k = None /\
             groupedEntities m' !! k = Some []).

(** A float that is finite and not zero, or the positive zero. *)
Definition finite_or_pzero (x : f32) : bool :=
  match x with
  | S754_finite _ _ _ | S754_zero false => true
  | _ => false
  end.

(** What holds of every object between two passes of the loop: a ball
    of the default radius moving along a diagonal; a paddle of the
    default size that does not move by itself and sits on the row
    [height - 50]; a brick of the default size that, unless marked
    destroyed, requires between one and three hits. *)
Definition entity_ok (e : Entity) : Prop :=
  match e with
  | EBall b =>
      diagonal_speed b /\ radius (ball_circle b) = BallC.defRadius
  | EPaddle p =>
      paddle_velocity p = {| vec_x := #f 0; vec_y := #f 0 |} /\
      pos_y (rect_shape (paddle_rect p)) =
        (#f (rect_h gScreenRect) - #f 50)%f32 /\
      rect_width (paddle_rect p) = PaddleC.defWidth /\
      rect_height (paddle_rect p) = PaddleC.defHeight
  | EBrick k =>
      (brick_destroyed k = false -> 1 <= requiredHits k <= 3) /\
      rect_width (brick_rect k) = BrickC.defWidth /\
      rect_height (brick_rect k) = BrickC.defHeight
  end.

(** * Properties *)

(** ** Arithmetic of [int] and order of [float] *)

Module IntFacts.
Import Int.

Lemma wrap_in_range z : in_range z -> wrap z = z.
Proof.
  unfold in_range, wrap, min_int, max_int. intros Hz.
  rewrite Z.mod_small; lia.
Qed.

Lemma wrap_range z : in_range (wrap z).
Proof.
  unfold in_range, wrap, min_int, max_int.
  pose proof (Z.mod_pos_bound (z + 2 ^ 31) (2 ^ 32)). lia.
Qed.

End IntFacts.

(** Order facts that hold for every float, NaN included. *)

Module F32Facts.
Import F32.

Lemma compare_antisym (a b : f32) :
  SFcompare b a = option_map CompOpp (SFcompare a b).
Proof.
  destruct a as [[]|[]| |[] ma ea], b as [[]|[]| |[] mb eb];
    simpl; try reflexivity.
  - rewrite (Z.compare_antisym ea eb).
    destruct (ea ?= eb); simpl; try reflexivity.
    rewrite (Pos.compare_cont_antisym mb ma Eq). simpl.
    rewrite CompOpp_involutive. reflexivity.
  - rewrite (Z.compare_antisym ea eb).
    destruct (ea ?= eb); simpl; try reflexivity.
    rewrite (Pos.compare_cont_antisym ma mb Eq). reflexivity.
Qed.

Lemma geb_leb a b : geb a b = leb b a.
Proof.
  unfold geb, leb, SFleb. rewrite (compare_antisym a b).
  destruct (SFcompare a b) as [[]|]; reflexivity.
Qed.

Lemma gtb_ltb a b : gtb a b = ltb b a.
Proof.
  unfold gtb, ltb, SFltb. rewrite (compare_antisym a b).
  destruct (SFcompare a b) as [[]|]; reflexivity.
Qed.

Lemma ltb_irrefl a : ltb a a = false.
Proof.
  unfold ltb, SFltb. pose proof (compare_antisym a a) as H.
  destruct (SFcompare a a) as [[]|]; simpl in H; congruence.
Qed.

Lemma ltb_asym a b : ltb a b = true -> ltb b a = false.
Proof.
  unfold ltb, SFltb. rewrite (compare_antisym a b).
  destruct (SFcompare a b) as [[]|]; simpl; congruence.
Qed.

Lemma leb_not_ltb a b : leb a b = true -> ltb b a = false.
Proof.
  unfold leb, ltb, SFleb, SFltb. rewrite (compare_antisym a b).
  destruct (SFcompare a b) as [[]|]; simpl; congruence.
Qed.

Lemma eqb_not_ltb a b : eqb a b = true -> ltb a b = false.
Proof.
  unfold eqb, ltb, SFeqb, SFltb.
  destruct (SFcompare a b) as [[]|]; congruence.
Qed.

Lemma eqb_sym a b : eqb a b = eqb b a.
Proof.
  unfold eqb, SFeqb. rewrite (compare_antisym a b).
  destruct (SFcompare a b) as [[]|]; reflexivity.
Qed.

Lemma eqb_geb a b : eqb a b = true -> geb a b = true.
Proof.
  unfold eqb, geb, SFeqb.
  destruct (SFcompare a b) as [[]|]; congruence.
Qed.

Lemma eqb_leb a b : eqb a b = true -> leb a b = true.
Proof.
  unfold eqb, leb, SFeqb, SFleb.
  destruct (SFcompare a b) as [[]|]; congruence.
Qed.

(** A float that compares equal to a finite non-zero float is that
    float: only the two zeros compare equal without being identical. *)
Lemma eqb_finite_eq a s m e :
  eqb a (S754_finite s m e) = true -> a = S754_finite s m e.
Proof.
  unfold eqb, SFeqb.
  destruct a as [[]|[]| |[] ma ea], s; simpl; try discriminate.
  - destruct (ea ?= e) eqn:He; try discriminate.
    apply Z.compare_eq in He. subst ea.
    destruct (Pos.compare_cont Eq ma m) eqn:Hm; try discriminate.
    apply Pos.compare_eq in Hm. subst ma. reflexivity.
  - destruct (ea ?= e) eqn:He; try discriminate.
    apply Z.compare_eq in He. subst ea.
    destruct (Pos.compare_cont Eq ma m) eqn:Hm; try discriminate.
    apply Pos.compare_eq in Hm. subst ma. reflexivity.
Qed.

End F32Facts.

(** ** Edge queries are untouched by writes to other members *)

Lemma solveBoundCollisions_circle b :
  ball_circle (solveBoundCollisions b) = ball_circle b.
Proof.
  unfold solveBoundCollisions.
  repeat match goal with |- context [if ?c then _ else _] => destruct c end;
    reflexivity.
Qed.

Lemma solveBoundCollisions_destroyed b :
  ball_destroyed (solveBoundCollisions b) =
  ball_destroyed b ||
    (negb (top b <? #f 0)%f32 && (bottom b >? #f (rect_h gScreenRect))%f32).
Proof.
  unfold solveBoundCollisions.
  set (b1 := if (left b <? #f 0)%f32 then _ else _).
  assert (Hc : ball_circle b1 = ball_circle b).
  { subst b1.
    repeat match goal with |- context [if ?c then _ else _] => destruct c end;
      reflexivity. }
  assert (Hd : ball_destroyed b1 = ball_destroyed b).
  { subst b1.
    repeat match goal with |- context [if ?c then _ else _] => destruct c end;
      reflexivity. }
  assert (Ht : top b1 = top b) by (simpl; rewrite Hc; reflexivity).
  assert (Hb : bottom b1 = bottom b) by (simpl; rewrite Hc; reflexivity).
  rewrite Ht, Hb.
  destruct (top b <? #f 0)%f32, (bottom b >? #f (rect_h gScreenRect))%f32;
    cbn [negb andb ball_set_velocity_y ball_set_destroyed ball_destroyed];
    rewrite ?Hd; destruct (ball_destroyed b); reflexivity.
Qed.

Lemma eqb_of_int_eq (a : f32) (z : Z) s m e :
  F32.of_int z = S754_finite s m e ->
  (a =? #f z)%f32 = true -> a = #f z.
Proof. intros ->. apply F32Facts.eqb_finite_eq. Qed.

(** ** C1: the bottom boundary *)

(** C1, as stated, fails: [update] leaves [ball_landing_on_bottom_edge]
    with [bottom() == worldHeight] (600), and does not mark it
    destroyed. *)
Lemma C1_ball_at_bottom_boundary_not_destroyed :
  (bottom (Ball_update ball_landing_on_bottom_edge) =?
     #f (rect_h gScreenRect))%f32 = true /\
  ball_destroyed (Ball_update ball_landing_on_bottom_edge) = false.
Proof. split; vm_compute; reflexivity. Qed.

(** C1, amended: a ball that [update] leaves exactly at the bottom
    boundary ([bottom() == worldHeight]) is not marked destroyed by the
    bound-collision check, and neither is one just above it
    ([bottom() == worldHeight - 1]); the check marks the ball destroyed
    exactly when [top() < 0] is false and [bottom() > worldHeight]
    holds strictly. *)
Theorem C1_bottom_boundary_strict (b : Ball) :
  let b' := Ball_update b in
  ((bottom b' =? #f (rect_h gScreenRect))%f32 = true ->
     ball_destroyed b' = ball_destroyed b) /\
  ((bottom b' =? #f (rect_h gScreenRect - 1))%f32 = true ->
     ball_destroyed b' = ball_destroyed b) /\
  ball_destroyed b' =
    ball_destroyed b ||
      (negb (top b' <? #f 0)%f32 && (bottom b' >? #f (rect_h gScreenRect))%f32).
Proof.
  intros b'. subst b'. unfold Ball_update.
  assert (Ht : top (solveBoundCollisions (ball_move b)) = top (ball_move b))
    by (simpl; rewrite solveBoundCollisions_circle; reflexivity).
  assert (Hb : bottom (solveBoundCollisions (ball_move b)) = bottom (ball_move b))
    by (simpl; rewrite solveBoundCollisions_circle; reflexivity).
  rewrite Ht, Hb, solveBoundCollisions_destroyed.
  change (ball_destroyed (ball_move b)) with (ball_destroyed b).
  split; [|split].
  - intros H. eapply eqb_of_int_eq in H; [|vm_compute; reflexivity].
    rewrite H.
    replace (#f (rect_h gScreenRect) >? #f (rect_h gScreenRect))%f32
      with false by (vm_compute; reflexivity).
    rewrite andb_false_r, orb_false_r. reflexivity.
  - intros H. eapply eqb_of_int_eq in H; [|vm_compute; reflexivity].
    rewrite H.
    replace (#f (rect_h gScreenRect - 1) >? #f (rect_h gScreenRect))%f32
      with false by (vm_compute; reflexivity).
    rewrite andb_false_r, orb_false_r. reflexivity.
  - reflexivity.
Qed.

Lemma C1_bottom_boundary_strict_witness :
  ball_destroyed (Ball_update ball_landing_on_bottom_edge) = false /\
  ball_destroyed (Ball_update ball_above_bottom_edge) = false.
Proof.
  split.
  - apply (proj1 (C1_bottom_boundary_strict ball_landing_on_bottom_edge)).
    vm_compute; reflexivity.
  - apply (proj1 (proj2 (C1_bottom_boundary_strict ball_above_bottom_edge))).
    vm_compute; reflexivity.
Defined.

(** ** The collision module *)

Lemma solveBrickBallCollision_miss mBrick mBall :
  isIntersecting mBrick mBall = false ->
  solveBrickBallCollision mBrick mBall = (mBrick, mBall).
Proof. intros H. unfold solveBrickBallCollision. rewrite H. reflexivity. Qed.

Lemma solveBrickBallCollision_hit mBrick mBall :
  isIntersecting mBrick mBall = true ->
  solveBrickBallCollision mBrick mBall =
  (brick_after_hit mBrick, ball_after_brick_hit mBrick mBall).
Proof.
  intros H. unfold solveBrickBallCollision. rewrite H.
  cbn [negb requiredHits brick_set_requiredHits].
  unfold brick_after_hit.
  destruct (Int.sub (requiredHits mBrick) 1 <=? 0);
    destruct mBrick as [[] ? ?]; reflexivity.
Qed.

Lemma isIntersecting_after_hit mBrick (mBall : Ball) :
  isIntersecting (brick_after_hit mBrick) mBall = isIntersecting mBrick mBall.
Proof. reflexivity. Qed.

Lemma min_side_not_beaten (a b : f32) :
  let m := if (F32.abs a <? F32.abs b)%f32 then a else b in
  (F32.abs a <? F32.abs m)%f32 = false /\
  (F32.abs b <? F32.abs m)%f32 = false.
Proof.
  simpl. destruct (F32.abs a <? F32.abs b)%f32 eqn:E.
  - split; [apply F32Facts.ltb_irrefl | apply F32Facts.ltb_asym, E].
  - split; [exact E | apply F32Facts.ltb_irrefl].
Qed.

(** C2: on intersection the four overlaps are the stated differences;
    on each axis the side kept is the one of smaller absolute overlap
    (no side has a strictly smaller one); the axis whose kept overlap
    is smaller in absolute value has its velocity component set to the
    bounce speed, negative when the left (resp. top) side was the
    smaller one and positive otherwise, and the component of the other
    axis is unchanged. *)
Theorem C2_brick_bounce_on_min_overlap_axis (mBrick : Brick) (mBall : Ball) :
  isIntersecting mBrick mBall = true ->
  let oL := overlapLeft mBrick mBall in
  let oR := overlapRight mBrick mBall in
  let oT := overlapTop mBrick mBall in
  let oB := overlapBottom mBrick mBall in
  let mX := minOverlapX mBrick mBall in
  let mY := minOverlapY mBrick mBall in
  let fromLeft := (F32.abs oL <? F32.abs oR)%f32 in
  let fromTop := (F32.abs oT <? F32.abs oB)%f32 in
  let v := ball_velocity mBall in
  let v' := ball_velocity (solveBrickBallCollision mBrick mBall).2 in
  (oL = (right mBall - left mBrick)%f32 /\
   oR = (right mBrick - left mBall)%f32 /\
   oT = (bottom mBall - top mBrick)%f32 /\
   oB = (bottom mBrick - top mBall)%f32) /\
  (mX = (if fromLeft then oL else oR) /\
   (F32.abs oL <? F32.abs mX)%f32 = false /\
   (F32.abs oR <? F32.abs mX)%f32 = false) /\
  (mY = (if fromTop then oT else oB) /\
   (F32.abs oT <? F32.abs mY)%f32 = false /\
   (F32.abs oB <? F32.abs mY)%f32 = false) /\
  ((F32.abs mX <? F32.abs mY)%f32 = true ->
     vec_x v' = (if fromLeft then (- BallC.defVelocity)%f32
                 else BallC.defVelocity) /\
     vec_y v' = vec_y v) /\
  ((F32.abs mY <? F32.abs mX)%f32 = true ->
     vec_y v' = (if fromTop then (- BallC.defVelocity)%f32
                 else BallC.defVelocity) /\
     vec_x v' = vec_x v).
Proof.
  intros Hi. cbv zeta. rewrite (solveBrickBallCollision_hit _ _ Hi).
  cbn [snd]. unfold ball_after_brick_hit.
  split; [repeat split|].
  split; [split; [reflexivity | apply min_side_not_beaten]|].
  split; [split; [reflexivity | apply min_side_not_beaten]|].
  split.
  - intros ->. split; reflexivity.
  - intros H. rewrite (F32Facts.ltb_asym _ _ H). split; reflexivity.
Qed.

Lemma C2_brick_bounce_on_min_overlap_axis_witness :
  (let v' := ball_velocity (solveBrickBallCollision (brick_at_100_100 1)
                              (ball_at 65 95 8 8)).2 in
   vec_x v' = #f (-8) /\ vec_y v' = #f 8) /\
  (let v' := ball_velocity (solveBrickBallCollision (brick_at_100_100 1)
                              (ball_at 95 85 8 8)).2 in
   vec_y v' = #f (-8) /\ vec_x v' = #f 8).
Proof.
  cbv zeta. split.
  - pose proof (C2_brick_bounce_on_min_overlap_axis
                  (brick_at_100_100 1) (ball_at 65 95 8 8) eq_refl) as H.
    cbv zeta in H. destruct H as (_ & _ & _ & H & _).
    destruct (H eq_refl) as [Hx Hy].
    split; [rewrite Hx | rewrite Hy]; vm_compute; reflexivity.
  - pose proof (C2_brick_bounce_on_min_overlap_axis
                  (brick_at_100_100 1) (ball_at 95 85 8 8) eq_refl) as H.
    cbv zeta in H. destruct H as (_ & _ & _ & _ & H).
    destruct (H eq_refl) as [Hy Hx].
    split; [rewrite Hy | rewrite Hx]; vm_compute; reflexivity.
Defined.

(** C3, as stated, fails.  The ball at (65, 95) overlaps the brick by 15
    on the vertical axis and by 5 on the horizontal one: the collision
    sets its horizontal velocity and leaves the vertical one as it was.
    And where the vertical component is the one written, it is set, not
    negated: the ball at (100, 82), already moving up, keeps its
    vertical velocity of -8. *)
Lemma C3_more_vertical_overlap_sets_horizontal :
  let mBrick := brick_at_100_100 1 in
  (let mBall := ball_at 65 95 8 8 in
   let v' := ball_velocity (solveBrickBallCollision mBrick mBall).2 in
   isIntersecting mBrick mBall = true /\
   minOverlapX mBrick mBall = #f 5 /\ minOverlapY mBrick mBall = #f 15 /\
   vec_y v' = vec_y (ball_velocity mBall) /\
   vec_x v' <> vec_x (ball_velocity mBall)) /\
  (let mBall := ball_at 100 82 (-8) (-8) in
   let v' := ball_velocity (solveBrickBallCollision mBrick mBall).2 in
   isIntersecting mBrick mBall = true /\
   minOverlapX mBrick mBall = #f 40 /\ minOverlapY mBrick mBall = #f 2 /\
   vec_y v' = vec_y (ball_velocity mBall)).
Proof.
  cbv zeta. repeat split; try (vm_compute; reflexivity).
  vm_compute. discriminate.
Qed.

(** C3, amended: for every ball intersecting a brick whose kept vertical
    overlap is at most the kept horizontal one in absolute value
    ([|minOverlapY| <= |minOverlapX|]: the ball overlaps the brick no
    more on the vertical axis than on the horizontal one),
    [solveBrickBallCollision] writes only the vertical velocity
    component, setting it to [-defVelocity] when the top side has the
    smaller overlap and to [+defVelocity] otherwise, and leaves the
    horizontal component unchanged. *)
Theorem C3_less_vertical_overlap_sets_vertical (mBrick : Brick) (mBall : Ball) :
  isIntersecting mBrick mBall = true ->
  (F32.abs (minOverlapY mBrick mBall) <=?
   F32.abs (minOverlapX mBrick mBall))%f32 = true ->
  let mBall' := (solveBrickBallCollision mBrick mBall).2 in
  vec_y (ball_velocity mBall') =
    (if ballFromTop mBrick mBall then (- BallC.defVelocity)%f32
     else BallC.defVelocity) /\
  vec_x (ball_velocity mBall') = vec_x (ball_velocity mBall) /\
  ball_circle mBall' = ball_circle mBall /\
  ball_destroyed mBall' = ball_destroyed mBall.
Proof.
  intros Hi Hle. cbv zeta. rewrite (solveBrickBallCollision_hit _ _ Hi).
  cbn [snd]. unfold ball_after_brick_hit.
  rewrite (F32Facts.leb_not_ltb _ _ Hle). repeat split.
Qed.

Lemma C3_less_vertical_overlap_sets_vertical_witness :
  let v' := ball_velocity (solveBrickBallCollision (brick_at_100_100 1)
                             (ball_at 95 85 8 8)).2 in
  vec_y v' = #f (-8) /\ vec_x v' = #f 8.
Proof.
  pose proof (C3_less_vertical_overlap_sets_vertical
                (brick_at_100_100 1) (ball_at 95 85 8 8) eq_refl eq_refl) as H.
  cbv zeta in *. destruct H as (Hy & Hx & _).
  split; [rewrite Hy | rewrite Hx]; vm_compute; reflexivity.
Defined.

(** C10: when the two kept overlaps have equal absolute values the
    vertical component is the one set (sign from the smaller vertical
    side) and the horizontal component is unchanged. *)
Theorem C10_axis_tie_resolves_to_vertical (mBrick : Brick) (mBall : Ball) :
  isIntersecting mBrick mBall = true ->
  (F32.abs (minOverlapX mBrick mBall) =?
   F32.abs (minOverlapY mBrick mBall))%f32 = true ->
  let v' := ball_velocity (solveBrickBallCollision mBrick mBall).2 in
  vec_y v' =
    (if (F32.abs (overlapTop mBrick mBall) <?
         F32.abs (overlapBottom mBrick mBall))%f32
     then (- BallC.defVelocity)%f32 else BallC.defVelocity) /\
  vec_x v' = vec_x (ball_velocity mBall).
Proof.
  intros Hi Heq. cbv zeta. rewrite (solveBrickBallCollision_hit _ _ Hi).
  cbn [snd]. unfold ball_after_brick_hit.
  rewrite (F32Facts.eqb_not_ltb _ _ Heq). split; reflexivity.
Qed.

(** The ball at (65, 85) overlaps the brick by 5 on either axis. *)
Lemma C10_axis_tie_resolves_to_vertical_witness :
  let v' := ball_velocity (solveBrickBallCollision (brick_at_100_100 1)
                             (ball_at 65 85 8 8)).2 in
  vec_y v' = #f (-8) /\ vec_x v' = #f 8.
Proof.
  pose proof (C10_axis_tie_resolves_to_vertical
                (brick_at_100_100 1) (ball_at 65 85 8 8) eq_refl eq_refl) as H.
  cbv zeta in *. destruct H as (Hy & Hx).
  split; [rewrite Hy | rewrite Hx]; vm_compute; reflexivity.
Defined.

(** C4: without intersection the call changes nothing; on intersection
    [requiredHits] (any [int] above the least one) goes down by exactly
    one and the brick is marked destroyed if and only if the new value
    is [<= 0].  Hence one hit destroys a brick with [requiredHits = 1],
    and two hits leave a brick with [requiredHits = 3] alive with
    [requiredHits = 1]. *)
Theorem C4_brick_hit_count (mBrick : Brick) (mBall mBall2 : Ball) :
  (isIntersecting mBrick mBall = false ->
     solveBrickBallCollision mBrick mBall = (mBrick, mBall)) /\
  (isIntersecting mBrick mBall = true ->
   Int.min_int < requiredHits mBrick <= Int.max_int ->
   let mBrick' := (solveBrickBallCollision mBrick mBall).1 in
   requiredHits mBrick' = requiredHits mBrick - 1 /\
   brick_destroyed mBrick' =
     brick_destroyed mBrick || (requiredHits mBrick' <=? 0) /\
   (brick_destroyed mBrick = false ->
      (brick_destroyed mBrick' = true <-> requiredHits mBrick' <= 0)) /\
   brick_rect mBrick' = brick_rect mBrick) /\
  (isIntersecting mBrick mBall = true ->
   requiredHits mBrick = 1 ->
   brick_destroyed (solveBrickBallCollision mBrick mBall).1 = true) /\
  (let mBrick' := (solveBrickBallCollision mBrick mBall).1 in
   let mBrick'' := (solveBrickBallCollision mBrick' mBall2).1 in
   isIntersecting mBrick mBall = true ->
   isIntersecting mBrick' mBall2 = true ->
   requiredHits mBrick = 3 -> brick_destroyed mBrick = false ->
   brick_destroyed mBrick'' = false /\ requiredHits mBrick'' = 1).
Proof.
  split; [apply solveBrickBallCollision_miss|].
  split; [|split].
  - intros Hi Hr. cbv zeta. rewrite (solveBrickBallCollision_hit _ _ Hi).
    cbn [fst brick_after_hit requiredHits brick_destroyed brick_rect].
    assert (Hs : Int.sub (requiredHits mBrick) 1 = requiredHits mBrick - 1).
    { apply IntFacts.wrap_in_range. unfold Int.in_range, Int.min_int, Int.max_int in *.
      lia. }
    rewrite Hs. split; [reflexivity|]. split; [reflexivity|].
    split; [|reflexivity].
    intros ->. cbn [orb]. apply Z.leb_le.
  - intros Hi H1. rewrite (solveBrickBallCollision_hit _ _ Hi).
    cbn [fst brick_after_hit brick_destroyed]. rewrite H1.
    apply orb_true_r.
  - cbv zeta. intros Hi. rewrite (solveBrickBallCollision_hit _ _ Hi).
    cbn [fst]. intros Hi2 H3 Hd.
    rewrite (solveBrickBallCollision_hit _ _ Hi2).
    cbn [fst brick_after_hit requiredHits brick_destroyed].
    rewrite H3, Hd. split; reflexivity.
Qed.

Lemma C4_brick_hit_count_witness :
  let mBall := ball_at 65 95 8 8 in
  brick_destroyed (solveBrickBallCollision (brick_at_100_100 1) mBall).1 = true /\
  (let mBrick' := (solveBrickBallCollision (brick_at_100_100 3) mBall).1 in
   let mBrick'' := (solveBrickBallCollision mBrick' mBall).1 in
   brick_destroyed mBrick'' = false /\ requiredHits mBrick'' = 1) /\
  solveBrickBallCollision (brick_at_100_100 1) (ball_at 300 300 8 8) =
    (brick_at_100_100 1, ball_at 300 300 8 8).
Proof.
  cbv zeta. split; [|split].
  - apply (proj1 (proj2 (proj2
      (C4_brick_hit_count (brick_at_100_100 1) (ball_at 65 95 8 8)
                          (ball_at 65 95 8 8)))));
      vm_compute; reflexivity.
  - apply (proj2 (proj2 (proj2
      (C4_brick_hit_count (brick_at_100_100 3) (ball_at 65 95 8 8)
                          (ball_at 65 95 8 8)))));
      vm_compute; reflexivity.
  - apply (proj1
      (C4_brick_hit_count (brick_at_100_100 1) (ball_at 300 300 8 8)
                          (ball_at 300 300 8 8))).
    vm_compute; reflexivity.
Defined.

(** C5: without intersection the call leaves the ball as it is; on
    intersection the vertical velocity becomes [-defVelocity] and the
    horizontal one [-defVelocity] when [ball.x < paddle.x] and
    [+defVelocity] otherwise, so that equal centres give
    [+defVelocity]; nothing else of the ball changes. *)
Theorem C5_paddle_bounce (mPaddle : Paddle) (mBall : Ball) :
  let ball_x := pos_x (circ_shape (ball_circle mBall)) in
  let paddle_x := pos_x (rect_shape (paddle_rect mPaddle)) in
  let mBall' := solvePaddleBallCollision mPaddle mBall in
  (isIntersecting mPaddle mBall = false -> mBall' = mBall) /\
  (isIntersecting mPaddle mBall = true ->
     vec_y (ball_velocity mBall') = (- BallC.defVelocity)%f32 /\
     vec_x (ball_velocity mBall') =
       (if (ball_x <? paddle_x)%f32 then (- BallC.defVelocity)%f32
        else BallC.defVelocity) /\
     ((ball_x =? paddle_x)%f32 = true ->
        vec_x (ball_velocity mBall') = BallC.defVelocity) /\
     ball_circle mBall' = ball_circle mBall /\
     ball_destroyed mBall' = ball_destroyed mBall).
Proof.
  cbv zeta. unfold solvePaddleBallCollision. split.
  - intros ->. reflexivity.
  - intros ->. cbn [negb]. repeat split.
    intros Heq. cbn. rewrite (F32Facts.eqb_not_ltb _ _ Heq). reflexivity.
Qed.

Lemma C5_paddle_bounce_witness :
  (let v' := ball_velocity (solvePaddleBallCollision paddle_at_400_550
                              (ball_at 390 535 (-8) 8)) in
   vec_y v' = #f (-8) /\ vec_x v' = #f (-8)) /\
  vec_x (ball_velocity (solvePaddleBallCollision paddle_at_400_550
                          (ball_at 400 535 (-8) 8))) = #f 8 /\
  solvePaddleBallCollision paddle_at_400_550 (ball_at 400 300 (-8) 8) =
    ball_at 400 300 (-8) 8.
Proof.
  split; [|split].
  - pose proof (C5_paddle_bounce paddle_at_400_550 (ball_at 390 535 (-8) 8))
      as H.
    cbv zeta in *. destruct H as [_ H]. destruct (H eq_refl) as (Hy & Hx & _).
    split; [rewrite Hy | rewrite Hx]; vm_compute; reflexivity.
  - pose proof (C5_paddle_bounce paddle_at_400_550 (ball_at 400 535 (-8) 8))
      as H.
    cbv zeta in H. destruct H as [_ H]. destruct (H eq_refl) as (_ & _ & Hx & _).
    rewrite (Hx eq_refl). reflexivity.
  - apply (proj1 (C5_paddle_bounce paddle_at_400_550 (ball_at 400 300 (-8) 8))).
    vm_compute. reflexivity.
Defined.

(** C9: [isIntersecting] gives the same answer with its arguments
    exchanged, whatever the two shapes are (rectangles, circles, or the
    entities built on them), and its comparisons are inclusive: shapes
    whose extents merely touch, [A.right() == B.left()], intersect (the
    other three comparisons holding). *)
Theorem C9_isIntersecting_symmetric_inclusive
    (T1 T2 : Type) (E1 : Extent T1) (E2 : Extent T2) (mA : T1) (mB : T2) :
  isIntersecting mA mB = isIntersecting mB mA /\
  ((right mA =? left mB)%f32 = true ->
   (left mA <=? right mB)%f32 = true ->
   (bottom mA >=? top mB)%f32 = true ->
   (top mA <=? bottom mB)%f32 = true ->
   isIntersecting mA mB = true).
Proof.
  unfold isIntersecting. split.
  - rewrite !F32Facts.geb_leb.
    destruct (left mB <=? right mA)%f32, (left mA <=? right mB)%f32,
      (top mB <=? bottom mA)%f32, (top mA <=? bottom mB)%f32; reflexivity.
  - intros He -> -> ->. rewrite (F32Facts.eqb_geb _ _ He). reflexivity.
Qed.

Lemma C9_isIntersecting_symmetric_inclusive_witness :
  isIntersecting (rect_at 0 0 10 10) (rect_at 10 0 10 10) = true /\
  isIntersecting (rect_at 10 0 10 10) (rect_at 0 0 10 10) = true /\
  isIntersecting (circle_at (-8) 0 3) (rect_at 0 0 10 10) = true /\
  isIntersecting (rect_at 0 0 10 10) (circle_at (-8) 0 3) = true.
Proof.
  assert (H1 : isIntersecting (rect_at 0 0 10 10) (rect_at 10 0 10 10) = true).
  { apply (proj2 (C9_isIntersecting_symmetric_inclusive _ _ _ _
                    (rect_at 0 0 10 10) (rect_at 10 0 10 10)));
      vm_compute; reflexivity. }
  assert (H2 : isIntersecting (circle_at (-8) 0 3) (rect_at 0 0 10 10) = true).
  { apply (proj2 (C9_isIntersecting_symmetric_inclusive _ _ _ _
                    (circle_at (-8) 0 3) (rect_at 0 0 10 10)));
      vm_compute; reflexivity. }
  split; [exact H1|]. split; [|split; [exact H2|]].
  - rewrite <- (proj1 (C9_isIntersecting_symmetric_inclusive _ _ _ _
                         (rect_at 0 0 10 10) (rect_at 10 0 10 10))).
    exact H1.
  - rewrite <- (proj1 (C9_isIntersecting_symmetric_inclusive _ _ _ _
                         (circle_at (-8) 0 3) (rect_at 0 0 10 10))).
    exact H2.
Defined.

(** ** The entity store: [refresh] *)

Lemma deref_in_Some es p e : deref_in es p = Some e -> (p, e) ∈ es.
Proof.
  induction es as [|[a e0] es IH]; simpl; [discriminate|].
  destruct (decide (a = p)) as [->|Hne].
  - intros [= ->]. apply list_elem_of_here.
  - intros H. apply list_elem_of_further, IH, H.
Qed.

Lemma deref_in_owned es p : p ∈ es.*1 -> is_Some (deref_in es p).
Proof.
  induction es as [|[a e0] es IH]; simpl.
  - intros H. apply not_elem_of_nil in H. destruct H.
  - intros H. destruct (decide (a = p)) as [->|Hne]; [eauto|].
    apply IH. apply elem_of_cons in H. destruct H as [->|H]; [done|exact H].
Qed.

Lemma deref_in_None es p : deref_in es p = None -> p ∉ es.*1.
Proof.
  intros H Hin. apply deref_in_owned in Hin. rewrite H in Hin.
  destruct Hin as [? [=]].
Qed.

(** Erasing the destroyed objects does not disturb a pointer to a
    surviving one. *)
Lemma deref_in_filter_alive es p :
  match deref_in es p with Some e => destroyed e | None => false end = false ->
  deref_in (filter (λ ae, destroyed ae.2 = false) es) p = deref_in es p.
Proof.
  induction es as [|[a e0] es IH]; simpl; [reflexivity|].
  rewrite filter_cons. simpl.
  destruct (decide (a = p)) as [->|Hne].
  - intros Hd. rewrite decide_True by exact Hd. simpl.
    rewrite decide_True by reflexivity. reflexivity.
  - intros Hd. destruct (decide (destroyed e0 = false)); simpl.
    + rewrite decide_False by exact Hne. apply IH, Hd.
    + apply IH, Hd.
Qed.

Lemma refresh_entities_alive m :
  Forall (λ ae, destroyed ae.2 = false) (entities (refresh m)).
Proof.
  apply Forall_forall. intros ae Hin. simpl in Hin.
  apply list_elem_of_filter in Hin. apply Hin.
Qed.

Lemma refresh_ptr_alive m p : ptr_destroyed (refresh m) p = false.
Proof.
  unfold ptr_destroyed, deref.
  destruct (deref_in (entities (refresh m)) p) as [e|] eqn:E; [|reflexivity].
  apply deref_in_Some in E.
  pose proof (refresh_entities_alive m) as Hall.
  rewrite Forall_forall in Hall. apply (Hall _ E).
Qed.

Lemma refresh_deref m p :
  ptr_destroyed m p = false -> deref (refresh m) p = deref m p.
Proof. apply deref_in_filter_alive. Qed.

Lemma filter_all {A} (P : A -> Prop) `{!∀ x, Decision (P x)} (l : list A) :
  Forall P l -> filter P l = l.
Proof.
  induction 1 as [|x l Hx _ IH]; [reflexivity|].
  rewrite filter_cons, decide_True by exact Hx. f_equal. exact IH.
Qed.

Lemma refresh_grouped_lookup m k v' :
  groupedEntities (refresh m) !! k = Some v' ->
  exists v, groupedEntities m !! k = Some v /\
            v' = filter (λ p, ptr_destroyed m p = false) v.
Proof.
  simpl. rewrite lookup_fmap. destruct (groupedEntities m !! k) as [v|];
    simpl; [|discriminate].
  intros [= <-]. eauto.
Qed.

(** [refresh] keeps the store free of dangling pointers. *)
Lemma refresh_no_dangling m : no_dangling m -> no_dangling (refresh m).
Proof.
  intros Hnd k v' Hk. destruct (refresh_grouped_lookup _ _ _ Hk) as (v & Hv & ->).
  apply Forall_forall. intros p Hp. apply list_elem_of_filter in Hp.
  destruct Hp as [Halive Hp].
  pose proof (Hnd k v Hv) as Hall. rewrite Forall_forall in Hall.
  apply Hall, deref_in_owned in Hp. destruct Hp as [e He].
  assert (Hd : deref (refresh m) p = Some e).
  { rewrite refresh_deref by exact Halive. exact He. }
  apply deref_in_Some in Hd.
  apply list_elem_of_fmap. exists (p, e). split; [reflexivity|exact Hd].
Qed.

(** Every store built by [create], [store], [refresh] and [clear] from
    the empty one is free of dangling pointers. *)
Lemma no_dangling_empty : no_dangling Manager_empty.
Proof. apply map_Forall_empty. Qed.

Lemma no_dangling_clear m : no_dangling (clear m).
Proof. apply map_Forall_empty. Qed.

Lemma no_dangling_create h e m :
  no_dangling m -> no_dangling (create h e m).2.
Proof.
  intros Hnd. unfold no_dangling, create, emplace_back_entity.
  cbn [snd entities groupedEntities]. rewrite fmap_app.
  apply map_Forall_insert_2.
  - apply Forall_app. split.
    + destruct (groupedEntities m !! h (typeid e)) as [v|] eqn:Hv; simpl;
        [|constructor].
      eapply Forall_impl; [apply (Hnd _ _ Hv)|].
      intros p Hp. apply elem_of_app. left. exact Hp.
    + repeat constructor. apply elem_of_app. right. apply list_elem_of_here.
  - intros k v Hv. eapply Forall_impl; [apply (Hnd _ _ Hv)|].
    intros p Hp. apply elem_of_app. left. exact Hp.
Qed.

Lemma store_in_addresses p f es : (store_in p f es).*1 = es.*1.
Proof.
  unfold store_in. induction es as [|[a e] es IH]; [reflexivity|].
  rewrite !fmap_cons, IH. destruct (decide ((a, e).1 = p)); reflexivity.
Qed.

Lemma no_dangling_store p f m : no_dangling m -> no_dangling (store p f m).
Proof.
  unfold no_dangling, store. cbn [entities groupedEntities].
  rewrite store_in_addresses. auto.
Qed.

(** C6: right after [refresh] the master list holds no entity with
    [destroyed == true], and no grouped view holds a pointer to one:
    the pointers kept are those whose object was not marked destroyed;
    in a store without dangling pointers each of them still points to
    an owned object, whose flag is [false]. *)
Theorem C6_refresh_removes_destroyed (m : Manager) :
  Forall (λ ae, destroyed ae.2 = false) (entities (refresh m)) /\
  map_Forall
    (λ _ v, Forall (λ p, ptr_destroyed m p = false /\
                         ptr_destroyed (refresh m) p = false) v)
    (groupedEntities (refresh m)) /\
  (no_dangling m ->
   map_Forall
     (λ _ v, Forall (λ p, exists e, deref (refresh m) p = Some e /\
                                    destroyed e = false) v)
     (groupedEntities (refresh m))).
Proof.
  split; [apply refresh_entities_alive|]. split.
  - intros k v' Hk. destruct (refresh_grouped_lookup _ _ _ Hk) as (v & Hv & ->).
    apply Forall_forall. intros p Hp. apply list_elem_of_filter in Hp.
    split; [apply Hp | apply refresh_ptr_alive].
  - intros Hnd k v' Hk.
    pose proof (refresh_no_dangling m Hnd k v' Hk) as Hall.
    rewrite Forall_forall in Hall. apply Forall_forall. intros p Hp.
    destruct (deref_in_owned _ _ (Hall p Hp)) as [e He].
    exists e. split; [exact He|].
    pose proof (refresh_ptr_alive m p) as Ha. unfold ptr_destroyed, deref in Ha.
    rewrite He in Ha. exact Ha.
Qed.

Lemma store_with_dead_brick_no_dangling : no_dangling store_with_dead_brick.
Proof.
  unfold no_dangling, store_with_dead_brick. simpl.
  apply map_Forall_insert_2; [|apply map_Forall_insert_2; [|apply map_Forall_empty]];
    repeat constructor.
Qed.

Lemma C6_refresh_removes_destroyed_witness :
  entities (refresh store_with_dead_brick) = [(0%N, EBall (ball_at 65 95 8 8))] /\
  groupedEntities (refresh store_with_dead_brick) !! 3%N = Some [] /\
  map_Forall
    (λ _ v, Forall (λ p, exists e, deref (refresh store_with_dead_brick) p = Some e /\
                                   destroyed e = false) v)
    (groupedEntities (refresh store_with_dead_brick)).
Proof.
  split; [vm_compute; reflexivity|]. split; [vm_compute; reflexivity|].
  apply (proj2 (proj2 (C6_refresh_removes_destroyed store_with_dead_brick))).
  exact store_with_dead_brick_no_dangling.
Defined.

(** C8: a second [refresh] right after the first removes nothing; the
    master list and every grouped view are as the first call left
    them. *)
Theorem C8_refresh_idempotent (m : Manager) :
  refresh (refresh m) = refresh m /\
  entities (refresh (refresh m)) = entities (refresh m) /\
  forall k, groupedEntities (refresh (refresh m)) !! k =
            groupedEntities (refresh m) !! k.
Proof.
  assert (He : entities (refresh (refresh m)) = entities (refresh m)).
  { change (entities (refresh (refresh m)))
      with (filter (λ ae, destroyed ae.2 = false) (entities (refresh m))).
    apply filter_all, refresh_entities_alive. }
  assert (Hg : groupedEntities (refresh (refresh m)) =
               groupedEntities (refresh m)).
  { change (groupedEntities (refresh (refresh m)))
      with (filter (λ p, ptr_destroyed (refresh m) p = false) <$>
              groupedEntities (refresh m)).
    rewrite <- (map_fmap_id (groupedEntities (refresh m))) at 2.
    apply map_fmap_ext. intros k v _. simpl.
    apply filter_all, Forall_forall. intros p _. apply refresh_ptr_alive. }
  split; [|split; [exact He | intros k; rewrite Hg; reflexivity]].
  destruct (refresh (refresh m)) as [es gs], (refresh m) as [es' gs'].
  simpl in He, Hg. subst. reflexivity.
Qed.

(** ** [restart] *)

Lemma for_range_rel {S S' : Type} (R : S -> S' -> Prop) lo hi
    (body : Z -> S -> S) (body' : Z -> S' -> S') s s' :
  (forall i t t', R t t' -> R (body i t) (body' i t')) ->
  R s s' -> R (for_range lo hi body s) (for_range lo hi body' s').
Proof.
  intros Hstep. unfold for_range. generalize (seqZ lo (hi - lo)) as l.
  intros l. revert s s'. induction l as [|i l IH]; intros s s' Hs; simpl.
  - exact Hs.
  - apply IH, Hstep, Hs.
Qed.

Lemma for_range_inv {S : Type} (P : S -> Prop) lo hi (body : Z -> S -> S) s :
  (forall i t, P t -> P (body i t)) -> P s -> P (for_range lo hi body s).
Proof.
  intros Hstep Hs.
  apply (for_range_rel (λ t _, P t) lo hi body body s s); auto.
Qed.

Section RestartFacts.

Variable hash_code : TypeId -> N.
Hypothesis hash_code_inj :
  forall T1 T2, hash_code T1 = hash_code T2 -> T1 = T2.

Lemma views_match_clear m : views_match hash_code (clear m).
Proof. intros T. reflexivity. Qed.

Lemma views_match_create e m :
  views_match hash_code m -> views_match hash_code (create hash_code e m).2.
Proof.
  intros Hm T. pose proof (Hm T) as HT. pose proof (Hm (typeid e)) as He.
  simpl in *. unfold emplace_back_entity.
  rewrite filter_app, fmap_app, filter_cons, filter_nil. simpl.
  destruct (decide (typeid e = T)) as [<-|Hne].
  - rewrite lookup_insert_eq. simpl. rewrite He. reflexivity.
  - rewrite lookup_insert_ne by (intros Hk; apply Hne, hash_code_inj, Hk).
    rewrite HT. simpl. rewrite app_nil_r. reflexivity.
Qed.

Lemma filter_typeid_store_in p f T es :
  (forall e, typeid (f e) = typeid e) ->
  (filter (λ ae, typeid ae.2 = T) (store_in p f es)).*1 =
  (filter (λ ae : addr * Entity, typeid ae.2 = T) es).*1.
Proof.
  intros Hf. induction es as [|[a e] es IH]; [reflexivity|].
  change (store_in p f ((a, e) :: es))
    with ((if decide (a = p) then (a, f e) else (a, e)) :: store_in p f es).
  rewrite !filter_cons.
  assert (Hhd : forall x : addr * Entity,
            x = (if decide (a = p) then (a, f e) else (a, e)) ->
            x.1 = a /\ typeid x.2 = typeid e).
  { intros x ->. destruct (decide (a = p)); simpl; rewrite ?Hf; auto. }
  destruct (Hhd _ eq_refl) as [H1 H2].
  destruct (if decide (a = p) then (a, f e) else (a, e)) as [a' e'].
  cbn [fst snd] in H1, H2. subst a'. cbn [fst snd]. rewrite H2.
  destruct (decide (typeid e = T)); rewrite ?fmap_cons, IH; reflexivity.
Qed.

Lemma views_match_store p f m :
  (forall e, typeid (f e) = typeid e) ->
  views_match hash_code m -> views_match hash_code (store p f m).
Proof.
  intros Hf Hm T. simpl. rewrite filter_typeid_store_in by exact Hf. apply Hm.
Qed.

Lemma assign_requiredHits_typeid n e :
  typeid (assign_requiredHits n e) = typeid e.
Proof. destruct e; reflexivity. Qed.

Lemma views_match_restart_brick iX iY m :
  views_match hash_code m -> views_match hash_code (restart_brick hash_code iX iY m).
Proof.
  intros Hm. unfold restart_brick.
  match goal with
  | |- context [create hash_code ?e m] =>
      pose proof (views_match_create e m Hm) as Hc;
      destruct (create hash_code e m) as [brick m1]
  end.
  apply views_match_store; [apply assign_requiredHits_typeid | exact Hc].
Qed.

Lemma views_match_restart g :
  views_match hash_code (manager (restart hash_code g)).
Proof.
  unfold restart. cbn [manager].
  apply views_match_create, views_match_create.
  apply for_range_inv; [|apply views_match_clear].
  intros iX t Ht. apply for_range_inv; [|exact Ht].
  intros iY t' Ht'. apply views_match_restart_brick, Ht'.
Qed.

End RestartFacts.

Lemma create_entities h e m :
  entities (create h e m).2 = emplace_back_entity e (entities m).
Proof. reflexivity. Qed.

Lemma restart_brick_entities (h h' : TypeId -> N) iX iY m m' :
  entities m = entities m' ->
  entities (restart_brick h iX iY m) = entities (restart_brick h' iX iY m').
Proof.
  intros Hm. unfold restart_brick, create, store.
  cbn [entities fst snd]. rewrite Hm. reflexivity.
Qed.

(** The master list that [restart] builds depends neither on the hash
    codes nor on the game it is called on. *)
Lemma restart_entities h g :
  entities (manager (restart h g)) =
  entities (manager (restart hash_code_example Game_new)).
Proof.
  unfold restart. cbn [manager]. rewrite !create_entities.
  match goal with
  | |- emplace_back_entity _ (emplace_back_entity _ (entities ?a)) =
       emplace_back_entity _ (emplace_back_entity _ (entities ?b)) =>
      assert (Hloop : entities a = entities b)
  end.
  { apply (for_range_rel (λ t t' : Manager, entities t = entities t'));
      [|reflexivity].
    intros iX t t' Ht.
    apply (for_range_rel (λ t t' : Manager, entities t = entities t'));
      [|exact Ht].
    intros iY u u' Hu. apply restart_brick_entities, Hu. }
  rewrite Hloop. reflexivity.
Qed.

(** C7: after [restart] the store holds [brkCountX * brkCountY] = 44
    bricks, one ball, placed at the centre of the world
    ([width / 2], [height / 2]) = (400, 300), and one paddle, 46
    objects in all; three lives remain; the state is [Paused]; and the
    bricks, in creation order, require [1 + ((iX * iY) % 3)] hits, a
    number among 1, 2 and 3.  The grouped views are read under hash
    codes that differ for the three entity types. *)
Theorem C7_restart_populates_store
    (hash_code : TypeId -> N)
    (hash_code_inj : forall T1 T2, hash_code T1 = hash_code T2 -> T1 = T2)
    (g : Game) :
  let g' := restart hash_code g in
  let m := manager g' in
  let bricks := (getAll hash_code TBrick m).1 in
  let balls := (getAll hash_code TBall m).1 in
  let paddles := (getAll hash_code TPaddle m).1 in
  (length bricks = Z.to_nat (brkCountX * brkCountY) /\
   length bricks = 44%nat /\ length (entities m) = 46%nat) /\
  (exists p ball,
     balls = [p] /\ deref m p = Some (EBall ball) /\
     pos_x (circ_shape (ball_circle ball)) =
       (#f (rect_w gScreenRect) / #f 2)%f32 /\
     pos_y (circ_shape (ball_circle ball)) =
       (#f (rect_h gScreenRect) / #f 2)%f32 /\
     pos_x (circ_shape (ball_circle ball)) = #f 400 /\
     pos_y (circ_shape (ball_circle ball)) = #f 300) /\
  (exists p paddle, paddles = [p] /\ deref m p = Some (EPaddle paddle)) /\
  remainingLives g' = 3 /\
  state g' = Paused /\
  brick_hits m <$> bricks =
    Some <$> (iX ← seqZ 0 brkCountX; iY ← seqZ 0 brkCountY;
              [1 + Z.rem (iX * iY) 3]) /\
  Forall (λ p, exists n, brick_hits m p = Some n /\ 1 <= n <= 3) bricks.
Proof.
  cbv zeta.
  pose proof (views_match_restart hash_code hash_code_inj g) as Hv.
  pose proof (restart_entities hash_code g) as He.
  unfold views_match in Hv. rewrite !Hv.
  unfold brick_hits, deref. rewrite !He.
  split; [|split; [|split; [|split; [|split; [|split]]]]].
  - vm_compute. repeat split.
  - eexists _, _. vm_compute. repeat split.
  - eexists _, _. vm_compute. repeat split.
  - reflexivity.
  - reflexivity.
  - vm_compute. reflexivity.
  - vm_compute. repeat constructor;
      (eexists; split; [reflexivity | split; discriminate]).
Qed.

Lemma hash_code_example_inj T1 T2 :
  hash_code_example T1 = hash_code_example T2 -> T1 = T2.
Proof. destruct T1, T2; simpl; intros H; (reflexivity || discriminate H). Qed.

Lemma C7_restart_populates_store_witness :
  let m := manager (restart hash_code_example Game_new) in
  length (getAll hash_code_example TBrick m).1 = 44%nat /\
  length (getAll hash_code_example TBall m).1 = 1%nat /\
  length (getAll hash_code_example TPaddle m).1 = 1%nat /\
  remainingLives (restart hash_code_example Game_new) = 3.
Proof.
  pose proof (C7_restart_populates_store hash_code_example
                hash_code_example_inj Game_new) as H.
  cbv zeta in *.
  destruct H as ((_ & Hb & _) & (p & ball & Hp & _) & (q & pad & Hq & _)
                 & Hl & _).
  rewrite Hb, Hp, Hq, Hl. repeat split.
Defined.

(** * Further properties of the store, the entities and the loop *)

(** ** [Manager::create] and [Manager::getAll] *)

Lemma new_addr_fresh es : new_addr es ∉ es.*1.
Proof. unfold new_addr. apply infinite_is_fresh. Qed.

Lemma deref_in_app es es' p :
  deref_in (es ++ es') p =
  match deref_in es p with Some e => Some e | None => deref_in es' p end.
Proof.
  induction es as [|[a e] es IH]; simpl; [reflexivity|].
  destruct (decide (a = p)); [reflexivity | exact IH].
Qed.

Lemma deref_in_not_owned es p : p ∉ es.*1 -> deref_in es p = None.
Proof.
  intros Hp. destruct (deref_in es p) as [e|] eqn:E; [|reflexivity].
  apply deref_in_Some in E. destruct Hp.
  apply list_elem_of_fmap. exists (p, e). split; [reflexivity | exact E].
Qed.

Lemma NoDup_deref_in es a e :
  NoDup es.*1 -> (a, e) ∈ es -> deref_in es a = Some e.
Proof.
  induction es as [|[a0 e0] es IH]; simpl; intros Hnd Hin.
  - apply not_elem_of_nil in Hin. destruct Hin.
  - apply NoDup_cons in Hnd. destruct Hnd as [Hfresh Hnd].
    apply elem_of_cons in Hin. destruct Hin as [[= -> ->]|Hin].
    + rewrite decide_True by reflexivity. reflexivity.
    + destruct (decide (a0 = a)) as [->|Hne]; [|apply IH; assumption].
      destruct Hfresh. apply list_elem_of_fmap. exists (a, e). split; [reflexivity|exact Hin].
Qed.

(** X1: the reference [create] returns is the address of a new object:
    no owned object had it, dereferencing it gives the object just
    constructed, every other pointer reads what it read before, and
    owned addresses stay pairwise distinct. *)
Theorem create_returns_fresh_reference
    (hash_code : TypeId -> N) (e : Entity) (m : Manager) :
  let ptr := (create hash_code e m).1 in
  let m' := (create hash_code e m).2 in
  (ptr ∉ (entities m).*1) /\
  deref m' ptr = Some e /\
  (forall q, q <> ptr -> deref m' q = deref m q) /\
  (NoDup (entities m).*1 -> NoDup (entities m').*1) /\
  length (entities m') = S (length (entities m)).
Proof.
  cbv zeta. unfold create, deref, emplace_back_entity.
  cbn [fst snd entities].
  pose proof (new_addr_fresh (entities m)) as Hf.
  split; [exact Hf|]. split; [|split; [|split]].
  - rewrite deref_in_app, (deref_in_not_owned _ _ Hf). simpl.
    rewrite decide_True by reflexivity. reflexivity.
  - intros q Hq. rewrite deref_in_app.
    destruct (deref_in (entities m) q); [reflexivity|]. simpl.
    rewrite decide_False by congruence. reflexivity.
  - intros Hnd. rewrite fmap_app. apply NoDup_app. split; [exact Hnd|].
    split; [|apply NoDup_singleton].
    intros x Hx Hx'. apply list_elem_of_singleton in Hx'. simpl in Hx'.
    subst x. exact (Hf Hx).
  - rewrite length_app. simpl. lia.
Qed.

(** X2: [create] appends the new pointer to the view stored under the
    hash code of the object's type and to no other; a type whose hash
    code collides with it shares that view. *)
Theorem create_extends_one_view
    (hash_code : TypeId -> N) (e : Entity) (m : Manager) (T : TypeId) :
  (getAll hash_code T (create hash_code e m).2).1 =
  if decide (hash_code T = hash_code (typeid e))
  then (getAll hash_code T m).1 ++ [(create hash_code e m).1]
  else (getAll hash_code T m).1.
Proof.
  unfold getAll, create. cbn [fst snd groupedEntities].
  destruct (decide (hash_code T = hash_code (typeid e))) as [->|Hne].
  - rewrite lookup_insert_eq. reflexivity.
  - rewrite lookup_insert_ne by congruence. reflexivity.
Qed.

(** X3: [getAll] only reads the views: it leaves the master list alone
    and every view, its own included, reads the same afterwards.  Under
    a key the map does not hold it returns the empty vector and leaves
    that empty vector in the map; under a key it holds it changes
    nothing at all. *)
Theorem getAll_reads_only
    (hash_code : TypeId -> N) (T : TypeId) (m : Manager) :
  let m' := (getAll hash_code T m).2 in
  entities m' = entities m /\
  (forall T', (getAll hash_code T' m').1 = (getAll hash_code T' m).1) /\
  (forall p, deref m' p = deref m p) /\
  (groupedEntities m !! hash_code T = None ->
     (getAll hash_code T m).1 = [] /\
     groupedEntities m' !! hash_code T = Some []) /\
  (is_Some (groupedEntities m !! hash_code T) -> m' = m).
Proof.
  cbv zeta. unfold getAll. cbn [fst snd entities groupedEntities].
  split; [reflexivity|]. split; [|split; [reflexivity|split]].
  - intros T'. destruct (decide (hash_code T = hash_code T')) as [->|Hne].
    + rewrite lookup_insert_eq. reflexivity.
    + rewrite lookup_insert_ne by exact Hne. reflexivity.
  - intros ->. rewrite lookup_insert_eq. split; reflexivity.
  - intros [v Hv]. rewrite Hv. cbn [default].
    rewrite (insert_id _ _ _ Hv). destruct m; reflexivity.
Qed.

(** ** [Manager::refresh]: what stays and what goes *)

Lemma NoDup_filter_addresses (P : addr * Entity -> Prop)
    `{!∀ x, Decision (P x)} es :
  NoDup es.*1 -> NoDup (filter P es).*1.
Proof.
  induction es as [|[a e] es IH]; [intros; constructor|].
  rewrite fmap_cons, NoDup_cons. intros [Ha Hnd]. rewrite filter_cons.
  destruct (decide (P (a, e))); [|apply IH, Hnd].
  rewrite fmap_cons. apply NoDup_cons. split; [|apply IH, Hnd].
  intros Hin. apply Ha. apply list_elem_of_fmap in Hin.
  destruct Hin as (x & -> & Hx). apply list_elem_of_filter in Hx.
  apply list_elem_of_fmap. exists x. split; [reflexivity | apply Hx].
Qed.

Lemma all_alive_ptr_alive m p :
  Forall (λ ae, destroyed ae.2 = false) (entities m) ->
  ptr_destroyed m p = false.
Proof.
  intros Hall. unfold ptr_destroyed, deref.
  destruct (deref_in (entities m) p) as [e|] eqn:E; [|reflexivity].
  apply deref_in_Some in E. rewrite Forall_forall in Hall. apply (Hall _ E).
Qed.

(** X4: [refresh] does not disturb the survivors: a pointer whose
    object is not marked destroyed reads the same object afterwards,
    and the master list keeps its order.  With distinct owned addresses
    a pointer to a destroyed object no longer leads anywhere. *)
Theorem refresh_keeps_survivors (m : Manager) (p : addr) :
  (ptr_destroyed m p = false -> deref (refresh m) p = deref m p) /\
  (NoDup (entities m).*1 -> ptr_destroyed m p = true ->
     deref (refresh m) p = None) /\
  entities (refresh m) `sublist_of` entities m.
Proof.
  split; [apply refresh_deref|]. split.
  - intros Hnd Hd. unfold ptr_destroyed, deref in *.
    destruct (deref_in (entities m) p) as [e|] eqn:E; [|discriminate].
    destruct (deref_in (entities (refresh m)) p) as [e'|] eqn:E';
      [|reflexivity].
    apply deref_in_Some in E'. simpl in E'.
    apply list_elem_of_filter in E'. destruct E' as [Halive Hin].
    rewrite (NoDup_deref_in _ _ _ Hnd Hin) in E. injection E as ->.
    simpl in Halive. congruence.
  - simpl. apply sublist_filter.
Qed.

Lemma refresh_keeps_survivors_witness :
  deref (refresh store_with_dead_brick) 0%N = deref store_with_dead_brick 0%N /\
  deref (refresh store_with_dead_brick) 1%N = None.
Proof.
  split.
  - apply (proj1 (refresh_keeps_survivors store_with_dead_brick 0%N)).
    vm_compute. reflexivity.
  - apply (proj1 (proj2 (refresh_keeps_survivors store_with_dead_brick 1%N))).
    + apply (bool_decide_unpack _). vm_compute. exact I.
    + vm_compute. reflexivity.
Defined.

(** X5: on a store that holds no object marked destroyed, [refresh]
    changes nothing. *)
Theorem refresh_without_destroyed_is_identity (m : Manager) :
  Forall (λ ae, destroyed ae.2 = false) (entities m) -> refresh m = m.
Proof.
  intros Hall. unfold refresh. destruct m as [es gs]. f_equal.
  - apply filter_all, Hall.
  - cbn [groupedEntities]. rewrite <- (map_fmap_id gs) at 2.
    apply map_fmap_ext. intros k v _. simpl.
    apply filter_all, Forall_forall. intros p _.
    apply (all_alive_ptr_alive {| entities := es; groupedEntities := gs |}).
    exact Hall.
Qed.

Lemma refresh_without_destroyed_is_identity_witness :
  refresh (restart hash_code_example Game_new).(manager) =
  (restart hash_code_example Game_new).(manager).
Proof.
  apply refresh_without_destroyed_is_identity.
  vm_compute. repeat constructor.
Defined.

(** ** Objects written in place *)

Lemma objects_related_refl (R : Entity -> Entity -> Prop) es :
  (forall e, R e e) -> objects_related R es es.
Proof.
  intros HR. unfold objects_related. induction es; constructor; auto.
Qed.

Lemma objects_related_trans (R : Entity -> Entity -> Prop) es1 es2 es3 :
  (forall a b c, R a b -> R b c -> R a c) ->
  objects_related R es1 es2 -> objects_related R es2 es3 ->
  objects_related R es1 es3.
Proof.
  intros HR H12. revert es3.
  induction H12 as [|x y l1 l2 [Hxy1 Hxy2] _ IH]; intros es3 H23;
    inversion H23 as [|y' z l2' l3 [Hyz1 Hyz2] Hrest]; subst; constructor.
  - split; [congruence | eapply HR; eassumption].
  - apply IH, Hrest.
Qed.

Lemma objects_related_addresses R es es' :
  objects_related R es es' -> es'.*1 = es.*1.
Proof.
  induction 1 as [|x y l l' [Hxy _] _ IH]; [reflexivity|].
  rewrite !fmap_cons, IH, Hxy. reflexivity.
Qed.

Lemma objects_related_deref R es es' p :
  objects_related R es es' ->
  match deref_in es p, deref_in es' p with
  | Some e, Some e' => R e e'
  | None, None => True
  | _, _ => False
  end.
Proof.
  induction 1 as [|[a e] [a' e'] l l' [Hxy HR] _ IH]; simpl; [exact I|].
  simpl in Hxy, HR. subst a'.
  destruct (decide (a = p)); [exact HR | exact IH].
Qed.

Lemma objects_related_views R es es' T :
  (forall e e', R e e' -> typeid e' = typeid e) ->
  objects_related R es es' ->
  (filter (λ ae : addr * Entity, typeid ae.2 = T) es').*1 =
  (filter (λ ae : addr * Entity, typeid ae.2 = T) es).*1.
Proof.
  intros HR. induction 1 as [|[a e] [a' e'] l l' [Hxy Hee] _ IH];
    [reflexivity|].
  simpl in Hxy, Hee. subst a'. rewrite !filter_cons. cbn [snd].
  rewrite (HR _ _ Hee).
  destruct (decide (typeid e = T)); rewrite ?fmap_cons, IH; reflexivity.
Qed.

Lemma objects_related_fmap (R : Entity -> Entity -> Prop) f es :
  (forall e, R e (f e)) ->
  objects_related R es ((λ ae, (ae.1, f ae.2)) <$> es).
Proof.
  intros HR. unfold objects_related.
  induction es as [|[a e] es IH]; constructor; auto.
Qed.

Lemma deref_in_store_in p f es q :
  deref_in (store_in p f es) q =
  if decide (q = p) then f <$> deref_in es q else deref_in es q.
Proof.
  unfold store_in. induction es as [|[a e] es IH].
  - destruct (decide (q = p)); reflexivity.
  - rewrite fmap_cons. cbn [fst snd deref_in].
    destruct (decide (a = p)) as [->|Hap]; cbn [deref_in].
    + destruct (decide (p = q)) as [<-|Hpq].
      * rewrite decide_True by reflexivity. reflexivity.
      * rewrite IH. reflexivity.
    + destruct (decide (a = q)) as [->|Haq].
      * rewrite decide_False by exact Hap. reflexivity.
      * exact IH.
Qed.

Lemma objects_related_store_in (R : Entity -> Entity -> Prop) es p old new :
  (forall e, R e e) -> NoDup es.*1 -> deref_in es p = Some old ->
  R old new -> objects_related R es (store_in p (λ _, new) es).
Proof.
  intros Hrefl Hnd Hp Hnew. unfold objects_related, store_in.
  apply Forall2_fmap_r, Forall2_same_length_lookup_2; [reflexivity|].
  intros i [a e] [a' e'] Hi Hi'. rewrite Hi in Hi'. injection Hi' as <- <-.
  unfold compose. cbn beta. cbn [fst snd].
  destruct (decide (a = p)) as [->|Hne]; cbn [fst snd].
  - split; [reflexivity|].
    assert (Hin : (p, e) ∈ es) by (eapply list_elem_of_lookup_2, Hi).
    rewrite (NoDup_deref_in _ _ _ Hnd Hin) in Hp. injection Hp as ->.
    exact Hnew.
  - split; [reflexivity | apply Hrefl].
Qed.

Lemma evolves_refl R m : (forall e, R e e) -> evolves R m m.
Proof. intros HR. split; [apply objects_related_refl, HR | auto]. Qed.

Lemma evolves_trans R m1 m2 m3 :
  (forall a b c, R a b -> R b c -> R a c) ->
  evolves R m1 m2 -> evolves R m2 m3 -> evolves R m1 m3.
Proof.
  intros HR [H12 G12] [H23 G23]. split.
  - eapply objects_related_trans; eassumption.
  - intros k. destruct (G12 k) as [E12|[N12 E12]], (G23 k) as [E23|[N23 E23]].
    + left. congruence.
    + right. split; congruence.
    + right. split; congruence.
    + congruence.
Qed.

Lemma evolves_NoDup R m m' :
  evolves R m m' -> NoDup (entities m).*1 -> NoDup (entities m').*1.
Proof.
  intros [H _]. rewrite (objects_related_addresses _ _ _ H). auto.
Qed.

Lemma evolves_views R h m m' T :
  evolves R m m' -> (getAll h T m').1 = (getAll h T m).1.
Proof.
  intros [_ G]. unfold getAll. cbn [fst].
  destruct (G (h T)) as [->|[-> ->]]; reflexivity.
Qed.

Lemma evolves_deref R m m' p e :
  evolves R m m' -> deref m p = Some e ->
  exists e', deref m' p = Some e' /\ R e e'.
Proof.
  intros [H _] Hp. pose proof (objects_related_deref _ _ _ p H) as Hd.
  unfold deref in *. rewrite Hp in Hd.
  destruct (deref_in (entities m') p) as [e'|]; [eauto | destruct Hd].
Qed.

Lemma evolves_no_dangling R m m' :
  evolves R m m' -> no_dangling m -> no_dangling m'.
Proof.
  intros [H G] Hnd k v Hk. rewrite (objects_related_addresses _ _ _ H).
  destruct (G k) as [E|[_ E]]; rewrite E in Hk.
  - apply (Hnd _ _ Hk).
  - injection Hk as <-. constructor.
Qed.

Lemma evolves_store_wf R h m m' :
  (forall e e', R e e' -> typeid e' = typeid e) ->
  evolves R m m' -> store_wf h m -> store_wf h m'.
Proof.
  intros HR Hev (Hnd & Hv & Hd). split; [|split].
  - eapply evolves_NoDup; eassumption.
  - intros T. rewrite (evolves_views _ _ _ _ _ Hev), Hv.
    symmetry. apply (objects_related_views R); [exact HR | apply Hev].
  - eapply evolves_no_dangling; eassumption.
Qed.

Lemma evolves_getAll R h T m :
  (forall e, R e e) -> evolves R m (getAll h T m).2.
Proof.
  intros HR. split; [apply objects_related_refl, HR|].
  intros k. unfold getAll. cbn [snd groupedEntities].
  destruct (decide (h T = k)) as [<-|Hne].
  - rewrite lookup_insert_eq.
    destruct (groupedEntities m !! h T); [left | right]; auto.
  - rewrite lookup_insert_ne by exact Hne. left. reflexivity.
Qed.

Lemma evolves_store R m p old new :
  (forall e, R e e) -> NoDup (entities m).*1 -> deref m p = Some old ->
  R old new -> evolves R m (store p (λ _, new) m).
Proof.
  intros Hrefl Hnd Hp Hnew. split; [|left; reflexivity].
  apply (objects_related_store_in R (entities m) p old new); assumption.
Qed.

Lemma evolves_Manager_update (R : Entity -> Entity -> Prop) t m :
  (forall e, R e (Entity_update t e)) -> evolves R m (Manager_update t m).
Proof.
  intros HR. split; [|left; reflexivity].
  apply (objects_related_fmap R (Entity_update t)), HR.
Qed.

(** ** The representation invariant of the store *)

Lemma filter_comm {A} (P Q : A -> Prop)
    `{!∀ x, Decision (P x)} `{!∀ x, Decision (Q x)} (l : list A) :
  filter P (filter Q l) = filter Q (filter P l).
Proof.
  induction l as [|x l IH]; [reflexivity|].
  rewrite !filter_cons.
  destruct (decide (Q x)), (decide (P x)); rewrite ?filter_cons;
    repeat (rewrite decide_True by assumption);
    repeat (rewrite decide_False by assumption);
    rewrite IH; reflexivity.
Qed.

Lemma filter_ptr_alive m (l : list (addr * Entity)) :
  NoDup (entities m).*1 -> (forall x, x ∈ l -> x ∈ entities m) ->
  filter (λ p, ptr_destroyed m p = false) l.*1 =
  (filter (λ ae, destroyed ae.2 = false) l).*1.
Proof.
  intros Hnd. induction l as [|[a e] l IH]; intros Hsub; [reflexivity|].
  rewrite fmap_cons, !filter_cons. cbn [fst snd].
  assert (Ha : ptr_destroyed m a = destroyed e).
  { unfold ptr_destroyed, deref.
    rewrite (NoDup_deref_in _ a e Hnd); [reflexivity|].
    apply Hsub, list_elem_of_here. }
  rewrite Ha.
  assert (IH' := IH (λ x Hx, Hsub x (list_elem_of_further _ _ _ Hx))).
  destruct (decide (destroyed e = false)); rewrite ?fmap_cons, IH';
    reflexivity.
Qed.

Lemma views_match_refresh h m :
  NoDup (entities m).*1 -> views_match h m -> views_match h (refresh m).
Proof.
  intros Hnd Hv T. pose proof (Hv T) as HT.
  unfold getAll in *. cbn [fst refresh entities groupedEntities] in *.
  rewrite lookup_fmap.
  replace (default [] (filter (λ p, ptr_destroyed m p = false) <$>
                         groupedEntities m !! h T))
    with (filter (λ p, ptr_destroyed m p = false)
            (default [] (groupedEntities m !! h T)))
    by (destruct (groupedEntities m !! h T); reflexivity).
  rewrite HT, filter_ptr_alive; [|exact Hnd|].
  - rewrite filter_comm. reflexivity.
  - intros x Hx. apply list_elem_of_filter in Hx. apply Hx.
Qed.

Lemma store_wf_refresh h m : store_wf h m -> store_wf h (refresh m).
Proof.
  intros (Hnd & Hv & Hd). split; [|split].
  - apply NoDup_filter_addresses, Hnd.
  - apply views_match_refresh; assumption.
  - apply refresh_no_dangling, Hd.
Qed.

Lemma store_wf_clear h m : store_wf h (clear m).
Proof.
  split; [constructor|]. split; [apply views_match_clear | apply no_dangling_clear].
Qed.

Lemma store_wf_empty h : store_wf h Manager_empty.
Proof. apply (store_wf_clear h Manager_empty). Qed.

Lemma NoDup_create h e m :
  NoDup (entities m).*1 -> NoDup (entities (create h e m).2).*1.
Proof.
  intros Hnd. cbn [create snd entities]. unfold emplace_back_entity.
  rewrite fmap_app. apply NoDup_app. split; [exact Hnd|].
  split; [|apply NoDup_singleton].
  intros x Hx Hx'. apply list_elem_of_singleton in Hx'. simpl in Hx'.
  subst x. exact (new_addr_fresh _ Hx).
Qed.

Lemma store_wf_create h e m :
  (forall T1 T2, h T1 = h T2 -> T1 = T2) ->
  store_wf h m -> store_wf h (create h e m).2.
Proof.
  intros Hinj (Hnd & Hv & Hd). split; [|split].
  - apply NoDup_create, Hnd.
  - apply views_match_create; assumption.
  - apply no_dangling_create, Hd.
Qed.

Lemma Entity_update_typeid t e : typeid (Entity_update t e) = typeid e.
Proof. destruct e; reflexivity. Qed.

Lemma store_wf_getAll h T m : store_wf h m -> store_wf h (getAll h T m).2.
Proof.
  apply (evolves_store_wf eq); [intros e e' <-; reflexivity|].
  apply evolves_getAll. reflexivity.
Qed.

Lemma store_wf_Manager_update h t m :
  store_wf h m -> store_wf h (Manager_update t m).
Proof.
  apply (evolves_store_wf (λ e e', typeid e' = typeid e)); [auto|].
  apply evolves_Manager_update. intros e. apply Entity_update_typeid.
Qed.

(** ** The collision phase *)

Lemma collision_frame_refl e : collision_frame e e.
Proof. destruct e; simpl; auto. Qed.

Lemma collision_frame_trans a b c :
  collision_frame a b -> collision_frame b c -> collision_frame a c.
Proof.
  destruct a, b, c; simpl; try tauto.
  - intros [-> ->] [-> ->]. auto.
  - congruence.
  - intros [-> H1] [-> H2]. auto.
Qed.

Lemma collision_frame_typeid e e' :
  collision_frame e e' -> typeid e' = typeid e.
Proof. destruct e, e'; simpl; tauto. Qed.

Lemma solveBrickBallCollision_frame mBrick mBall :
  collision_frame (EBrick mBrick)
    (EBrick (solveBrickBallCollision mBrick mBall).1) /\
  collision_frame (EBall mBall)
    (EBall (solveBrickBallCollision mBrick mBall).2).
Proof.
  destruct (isIntersecting mBrick mBall) eqn:Hi.
  - rewrite (solveBrickBallCollision_hit _ _ Hi). cbn [fst snd]. split.
    + simpl. split; [reflexivity|]. intros ->. reflexivity.
    + unfold ball_after_brick_hit. simpl.
      destruct (F32.abs _ <? F32.abs _)%f32; split; reflexivity.
  - rewrite (solveBrickBallCollision_miss _ _ Hi).
    split; apply collision_frame_refl.
Qed.

Lemma solvePaddleBallCollision_frame mPaddle mBall :
  collision_frame (EBall mBall)
    (EBall (solvePaddleBallCollision mPaddle mBall)).
Proof.
  unfold solvePaddleBallCollision.
  destruct (negb (isIntersecting mPaddle mBall)); simpl; auto.
Qed.

Lemma collide_brick_evolves pBrick pBall m :
  NoDup (entities m).*1 ->
  evolves collision_frame m (collide_brick pBrick pBall m).
Proof.
  intros Hnd. unfold collide_brick.
  destruct (deref m pBrick) as [[| |k]|] eqn:Ek;
    try apply evolves_refl, collision_frame_refl.
  destruct (deref m pBall) as [[b| |]|] eqn:Eb;
    try apply evolves_refl, collision_frame_refl.
  pose proof (solveBrickBallCollision_frame k b) as [Hk Hb].
  destruct (solveBrickBallCollision k b) as [k' b']. cbn [fst snd] in Hk, Hb.
  assert (H1 : evolves collision_frame m (store pBrick (λ _, EBrick k') m)).
  { apply (evolves_store _ _ _ (EBrick k));
      [apply collision_frame_refl | assumption..]. }
  eapply evolves_trans; [apply collision_frame_trans | exact H1 |].
  apply (evolves_store _ _ _ (EBall b));
    [apply collision_frame_refl | eapply evolves_NoDup; eassumption | | exact Hb].
  unfold deref in *. cbn [store entities]. rewrite deref_in_store_in.
  destruct (decide (pBall = pBrick)) as [->|_]; [congruence | exact Eb].
Qed.

Lemma collide_paddle_evolves pPaddle pBall m :
  NoDup (entities m).*1 ->
  evolves collision_frame m (collide_paddle pPaddle pBall m).
Proof.
  intros Hnd. unfold collide_paddle.
  destruct (deref m pPaddle) as [[|pd|]|] eqn:Ek;
    try apply evolves_refl, collision_frame_refl.
  destruct (deref m pBall) as [[b| |]|] eqn:Eb;
    try apply evolves_refl, collision_frame_refl.
  apply (evolves_store _ _ _ (EBall b));
    [apply collision_frame_refl | assumption.. |].
  apply solvePaddleBallCollision_frame.
Qed.

Lemma forEach_evolves R h T (f : addr -> Manager -> Manager) m :
  (forall e, R e e) -> (forall a b c, R a b -> R b c -> R a c) ->
  (forall p m, NoDup (entities m).*1 -> evolves R m (f p m)) ->
  NoDup (entities m).*1 -> evolves R m (forEach h T f m).
Proof.
  intros Hrefl Htrans Hf Hnd. unfold forEach.
  pose proof (evolves_getAll R h T m Hrefl) as H0.
  destruct (getAll h T m) as [v m0]. cbn [snd] in H0.
  eapply evolves_trans; [exact Htrans | exact H0 |].
  assert (Hnd0 : NoDup (entities m0).*1)
    by (eapply evolves_NoDup; eassumption).
  clear H0 Hnd. revert m0 Hnd0.
  induction v as [|p v IH]; intros m0 Hnd0; simpl.
  - apply evolves_refl, Hrefl.
  - eapply evolves_trans; [exact Htrans | apply Hf, Hnd0 |].
    apply IH. eapply evolves_NoDup; [apply Hf, Hnd0 | exact Hnd0].
Qed.

Lemma collisions_evolves h m :
  NoDup (entities m).*1 -> evolves collision_frame m (collisions h m).
Proof.
  intros Hnd. unfold collisions.
  apply forEach_evolves;
    [apply collision_frame_refl | apply collision_frame_trans | | exact Hnd].
  intros pBall m1 Hnd1.
  assert (H1 : evolves collision_frame m1
            (forEach h TBrick (λ pBrick, collide_brick pBrick pBall) m1)).
  { apply forEach_evolves;
      [apply collision_frame_refl | apply collision_frame_trans | | exact Hnd1].
    intros p m2 Hnd2. apply collide_brick_evolves, Hnd2. }
  eapply evolves_trans; [apply collision_frame_trans | exact H1 |].
  apply forEach_evolves;
    [apply collision_frame_refl | apply collision_frame_trans | |
     eapply evolves_NoDup; eassumption].
  intros p m2 Hnd2. apply collide_paddle_evolves, Hnd2.
Qed.

Lemma store_wf_collisions h m : store_wf h m -> store_wf h (collisions h m).
Proof.
  intros Hwf. eapply evolves_store_wf; [apply collision_frame_typeid | | exact Hwf].
  apply collisions_evolves, Hwf.
Qed.

(** X6: the operations of the store keep its representation invariant
    (distinct owned addresses, views that list in creation order the
    objects of their type, no dangling pointer): [create] and [clear],
    [refresh], [getAll], [update] and the collision phase.  [create]
    needs hash codes that differ for the three entity types. *)
Theorem store_wf_preserved (hash_code : TypeId -> N) (m : Manager) :
  (forall T1 T2, hash_code T1 = hash_code T2 -> T1 = T2) ->
  store_wf hash_code m ->
  (forall e, store_wf hash_code (create hash_code e m).2) /\
  store_wf hash_code (refresh m) /\
  store_wf hash_code (clear m) /\
  (forall T, store_wf hash_code (getAll hash_code T m).2) /\
  (forall t, store_wf hash_code (Manager_update t m)) /\
  store_wf hash_code (collisions hash_code m).
Proof.
  intros Hinj Hwf.
  split; [intros e; apply store_wf_create; assumption|].
  split; [apply store_wf_refresh, Hwf|].
  split; [apply store_wf_clear|].
  split; [intros T; apply store_wf_getAll, Hwf|].
  split; [intros t; apply store_wf_Manager_update, Hwf|].
  apply store_wf_collisions, Hwf.
Qed.

Lemma store_wf_preserved_witness :
  store_wf hash_code_example
    (create hash_code_example (EBall (ball_at 65 95 8 8)) Manager_empty).2 /\
  store_wf hash_code_example (refresh Manager_empty).
Proof.
  pose proof (store_wf_preserved hash_code_example Manager_empty
                hash_code_example_inj (store_wf_empty _)) as H.
  split; [apply H | apply H].
Defined.

(** X11: [Manager::update] updates every owned object once and in
    place: a pointer reads afterwards the update of what it read
    before, the owned addresses and their order are the same, and the
    grouped views are untouched. *)
Theorem Manager_update_in_place (t : SDL_Point) (m : Manager) :
  (forall p, deref (Manager_update t m) p = Entity_update t <$> deref m p) /\
  (entities (Manager_update t m)).*1 = (entities m).*1 /\
  (entities (Manager_update t m)).*2 = Entity_update t <$> (entities m).*2 /\
  groupedEntities (Manager_update t m) = groupedEntities m.
Proof.
  unfold Manager_update, deref. cbn [entities groupedEntities].
  split; [|split; [|split; [|reflexivity]]].
  - intros p. induction (entities m) as [|[a e] es IH]; [reflexivity|].
    rewrite fmap_cons. cbn [fst snd deref_in].
    destruct (decide (a = p)); [reflexivity | exact IH].
  - rewrite <- list_fmap_compose. apply list_fmap_ext. intros _ [a e] _.
    reflexivity.
  - rewrite <- !list_fmap_compose. apply list_fmap_ext. intros _ [a e] _.
    reflexivity.
Qed.

(** X12: in a store with distinct owned addresses the collision phase
    writes objects in place and nothing else: the master list keeps its
    addresses and order, every view reads the same pointers, and each
    object keeps its type and geometry; a ball keeps its [destroyed]
    flag, a paddle is unchanged, and a brick marked destroyed stays
    marked. *)
Theorem collisions_frame_rule (hash_code : TypeId -> N) (m : Manager) :
  NoDup (entities m).*1 ->
  objects_related collision_frame
    (entities m) (entities (collisions hash_code m)) /\
  (forall T, (getAll hash_code T (collisions hash_code m)).1 =
             (getAll hash_code T m).1) /\
  (forall p e, deref m p = Some e ->
     exists e', deref (collisions hash_code m) p = Some e' /\
                collision_frame e e') /\
  (forall p, deref m p = None -> deref (collisions hash_code m) p = None).
Proof.
  intros Hnd. pose proof (collisions_evolves hash_code m Hnd) as Hev.
  split; [apply Hev|]. split; [|split].
  - intros T. eapply evolves_views, Hev.
  - intros p e Hp. eapply evolves_deref; eassumption.
  - intros p Hp. destruct Hev as [Hrel _].
    pose proof (objects_related_deref _ _ _ p Hrel) as Hd.
    unfold deref in *. rewrite Hp in Hd.
    destruct (deref_in (entities (collisions hash_code m)) p);
      [destruct Hd | reflexivity].
Qed.

Lemma collisions_frame_rule_witness :
  let m := manager (restart hash_code_example Game_new) in
  (getAll hash_code_example TBrick (collisions hash_code_example m)).1 =
  (getAll hash_code_example TBrick m).1.
Proof.
  cbv zeta.
  apply (proj1 (proj2 (collisions_frame_rule hash_code_example
                         (manager (restart hash_code_example Game_new))
                         ltac:(apply (bool_decide_unpack _);
                               vm_compute; exact I)))).
Defined.

(** X13: with no ball in the ball view the collision phase changes no
    object. *)
Theorem collisions_without_ball (hash_code : TypeId -> N) (m : Manager) :
  (getAll hash_code TBall m).1 = [] ->
  entities (collisions hash_code m) = entities m.
Proof.
  intros Hb. unfold collisions, forEach.
  destruct (getAll hash_code TBall m) as [v m0] eqn:E.
  cbn [fst] in Hb. subst v. cbn [foldl].
  assert (Hm : m0 = (getAll hash_code TBall m).2) by (rewrite E; reflexivity).
  rewrite Hm. reflexivity.
Qed.

Lemma collisions_without_ball_witness :
  let m := (create hash_code_example (EBrick (brick_at_100_100 1))
              Manager_empty).2 in
  entities (collisions hash_code_example m) = entities m.
Proof.
  cbv zeta. apply collisions_without_ball. vm_compute. reflexivity.
Defined.

(** ** The entities' [update] *)

(** X7: [Brick::update] is cosmetic: it sets the fill colour to the
    tier of [requiredHits] (1, 2, anything else) and changes neither
    the flag, the hit count, the position nor the size; doing it twice
    is doing it once. *)
Theorem Brick_update_cosmetic (b : Brick) :
  let b' := Brick_update b in
  brick_destroyed b' = brick_destroyed b /\
  requiredHits b' = requiredHits b /\
  (left b' = left b /\ right b' = right b /\
   top b' = top b /\ bottom b' = bottom b) /\
  fillColor (rect_shape (brick_rect b')) =
    Some (if decide (requiredHits b = 1) then defColorHits1
          else if decide (requiredHits b = 2) then defColorHits2
          else defColorHits3) /\
  Brick_update b' = b'.
Proof.
  cbv zeta. unfold Brick_update. cbn.
  repeat split.
  destruct (decide (requiredHits b = 1)) as [->|H1]; [reflexivity|].
  rewrite (proj2 (Z.eqb_neq _ _) H1).
  destruct (decide (requiredHits b = 2)) as [->|H2]; [reflexivity|].
  rewrite (proj2 (Z.eqb_neq _ _) H2). reflexivity.
Qed.

(** X8: [Ball::update] first moves the ball by its velocity and then
    corrects the velocity for the next frame: past the left edge the
    horizontal component becomes [+defVelocity]; otherwise, past the
    right edge, [-defVelocity]; past the top edge the vertical
    component becomes [+defVelocity]; inside the bounds the velocity is
    kept.  The position is never corrected. *)
Theorem Ball_update_bounces (b : Ball) :
  let moved := ball_move b in
  let b' := Ball_update b in
  let v := ball_velocity b in
  let v' := ball_velocity b' in
  (pos_x (circ_shape (ball_circle b')) =
     (pos_x (circ_shape (ball_circle b)) + vec_x v)%f32 /\
   pos_y (circ_shape (ball_circle b')) =
     (pos_y (circ_shape (ball_circle b)) + vec_y v)%f32 /\
   radius (ball_circle b') = radius (ball_circle b)) /\
  vec_x v' =
    (if (left moved <? #f 0)%f32 then BallC.defVelocity
     else if (right moved >? #f (rect_w gScreenRect))%f32
          then (- BallC.defVelocity)%f32 else vec_x v) /\
  vec_y v' =
    (if (top moved <? #f 0)%f32 then BallC.defVelocity else vec_y v).
Proof.
  cbv zeta. unfold Ball_update.
  split; [rewrite solveBoundCollisions_circle; repeat split|].
  unfold solveBoundCollisions.
  set (m := ball_move b).
  set (b1 := if (left m <? #f 0)%f32 then _ else _).
  assert (Hc : ball_circle b1 = ball_circle m).
  { subst b1.
    repeat match goal with |- context [if ?c then _ else _] => destruct c end;
      reflexivity. }
  assert (Hx : vec_x (ball_velocity b1) =
               (if (left m <? #f 0)%f32 then BallC.defVelocity
                else if (right m >? #f (rect_w gScreenRect))%f32
                     then (- BallC.defVelocity)%f32
                     else vec_x (ball_velocity b))).
  { subst b1.
    repeat match goal with |- context [if ?c then _ else _] => destruct c end;
      reflexivity. }
  assert (Hy : vec_y (ball_velocity b1) = vec_y (ball_velocity b)).
  { subst b1.
    repeat match goal with |- context [if ?c then _ else _] => destruct c end;
      reflexivity. }
  assert (Ht : top b1 = top m) by (simpl; rewrite Hc; reflexivity).
  rewrite Ht, <- Hx, <- Hy.
  destruct (top m <? #f 0)%f32; [split; reflexivity|].
  destruct (bottom b1 >? #f (rect_h gScreenRect))%f32; split; reflexivity.
Qed.

Lemma add_pzero_r (x : f32) :
  finite_or_pzero x = true -> (x + #f 0)%f32 = x.
Proof. destruct x as [[]|[]| |]; simpl; try discriminate; reflexivity. Qed.

Lemma of_int_on_screen z :
  0 <= z <= rect_w gScreenRect -> finite_or_pzero #f z = true.
Proof.
  intros Hz.
  assert (Hall : forallb (λ z, finite_or_pzero #f z)
                   (seqZ 0 (rect_w gScreenRect + 1)) = true)
    by (vm_compute; reflexivity).
  rewrite forallb_forall in Hall. apply Hall.
  apply list_elem_of_In, elem_of_seqZ. simpl in *. lia.
Qed.

(** X9: [Paddle::update] puts the centre of a paddle that has no
    velocity of its own and sits on the row [height - 50] (the paddle
    of [restart]) exactly under a touch anywhere across the screen
    width, and changes nothing else; the position is not clamped, so
    near the screen edges the paddle sticks out of the world. *)
Theorem Paddle_update_follows_touch (t : SDL_Point) (p : Paddle) :
  0 <= point_x t <= rect_w gScreenRect ->
  paddle_velocity p = {| vec_x := #f 0; vec_y := #f 0 |} ->
  pos_y (rect_shape (paddle_rect p)) = (#f (rect_h gScreenRect) - #f 50)%f32 ->
  let p' := Paddle_update t p in
  pos_x (rect_shape (paddle_rect p')) = #f (point_x t) /\
  pos_y (rect_shape (paddle_rect p')) = pos_y (rect_shape (paddle_rect p)) /\
  rect_width (paddle_rect p') = rect_width (paddle_rect p) /\
  rect_height (paddle_rect p') = rect_height (paddle_rect p) /\
  paddle_velocity p' = paddle_velocity p /\
  paddle_destroyed p' = paddle_destroyed p.
Proof.
  intros Ht Hv Hy. cbv zeta. unfold Paddle_update, move. cbn.
  rewrite Hv, Hy. cbn [vec_x vec_y].
  rewrite (add_pzero_r _ (of_int_on_screen _ Ht)).
  repeat split.
Qed.

Lemma Paddle_update_follows_touch_witness :
  let p' := Paddle_update {| point_x := 0; point_y := 300 |} paddle_at_400_550 in
  pos_x (rect_shape (paddle_rect p')) = #f 0 /\
  (left p' <? #f 0)%f32 = true.
Proof.
  cbv zeta. split.
  - apply (Paddle_update_follows_touch {| point_x := 0; point_y := 300 |}
             paddle_at_400_550); [vm_compute; split; discriminate | reflexivity..].
  - vm_compute. reflexivity.
Defined.

(** ** [isIntersecting]: shapes apart *)

Lemma ltb_not_leb (a b : f32) : (a <? b)%f32 = true -> (b <=? a)%f32 = false.
Proof.
  unfold F32.ltb, F32.leb, SFltb, SFleb.
  rewrite (F32Facts.compare_antisym a b).
  destruct (SFcompare a b) as [[]|]; simpl; congruence.
Qed.

Lemma compare_nan_r (a : f32) : SFcompare a S754_nan = None.
Proof. destruct a as [[]|[]| |[]]; reflexivity. Qed.

(** X10: two shapes of which one lies strictly beyond an edge of the
    other (to its left, right, above or below) do not intersect, and a
    shape with a NaN edge towards the other intersects nothing. *)
Theorem isIntersecting_apart
    (T1 T2 : Type) (E1 : Extent T1) (E2 : Extent T2) (mA : T1) (mB : T2) :
  ((right mA <? left mB)%f32 = true \/ (right mB <? left mA)%f32 = true \/
   (bottom mA <? top mB)%f32 = true \/ (bottom mB <? top mA)%f32 = true ->
   isIntersecting mA mB = false) /\
  (right mA = S754_nan \/ left mB = S754_nan -> isIntersecting mA mB = false).
Proof.
  unfold isIntersecting. rewrite !F32Facts.geb_leb. split.
  - intros [H|[H|[H|H]]]; rewrite (ltb_not_leb _ _ H);
      rewrite ?andb_false_r; reflexivity.
  - assert (Hn : (left mB <=? right mA)%f32 = false ->
                 (left mB <=? right mA)%f32 && (left mA <=? right mB)%f32 &&
                 (top mB <=? bottom mA)%f32 && (top mA <=? bottom mB)%f32
                 = false) by (intros ->; reflexivity).
    intros [H|H]; apply Hn; rewrite H; unfold F32.leb, SFleb.
    + rewrite compare_nan_r. reflexivity.
    + reflexivity.
Qed.

Lemma isIntersecting_apart_witness :
  isIntersecting (rect_at 0 0 10 10) (circle_at 20 0 3) = false.
Proof.
  apply (proj1 (isIntersecting_apart _ _ _ _
                  (rect_at 0 0 10 10) (circle_at 20 0 3))).
  left. vm_compute. reflexivity.
Defined.

(** ** The loop of [Game::run] *)

Lemma play_eq h inp g :
  play h inp g =
  let balls := (getAll h TBall (manager g)).1 in
  let m0 := (getAll h TBall (manager g)).2 in
  let m1 :=
    match balls with
    | [] => (create h (EBall (BallC.new (#f (rect_w gScreenRect) / #f 2)%f32
                                        (#f (rect_h gScreenRect) / #f 2)%f32))
               m0).2
    | _ => m0
    end in
  let lives :=
    match balls with
    | [] => Int.sub (remainingLives g) 1
    | _ => remainingLives g
    end in
  let bricks := (getAll h TBrick m1).1 in
  let m2 := (getAll h TBrick m1).2 in
  {| manager := refresh (collisions h (Manager_update (gTouchLocation inp) m2));
     state := if lives <=? 0 then GameOver
              else match bricks with [] => Victory | _ => state g end;
     pausePressedLastFrame := pausePressedLastFrame g;
     remainingLives := lives |}.
Proof.
  unfold play. cbv zeta.
  destruct (getAll h TBall (manager g)) as [[|p balls] m0]; cbn [fst snd].
  - destruct (getAll h TBrick _) as [bricks m2]. reflexivity.
  - destruct (getAll h TBrick m0) as [bricks m2]. reflexivity.
Qed.

Lemma State_eqb_eq a b : State_eqb a b = true <-> a = b.
Proof. destruct a, b; simpl; split; congruence. Qed.

Lemma State_eqb_neq a b : State_eqb a b = false <-> a <> b.
Proof. destruct a, b; simpl; split; congruence. Qed.

(** X14: outside [InProgress], with no key down and no tap, a pass
    through the loop leaves the game as it is: the store is neither
    updated nor refreshed, state and lives stay. *)
Theorem run_iteration_idle (hash_code : TypeId -> N) (inp : Input) (g : Game) :
  key_P inp = false -> key_R inp = false -> gTouchTap inp = false ->
  state g <> InProgress ->
  run_iteration hash_code inp g =
  {| manager := manager g; state := state g;
     pausePressedLastFrame := false; remainingLives := remainingLives g |}.
Proof.
  intros HP HR HT Hs. unfold run_iteration, handle_pause, handle_restart.
  rewrite HP, HT. cbn [orb state]. rewrite HR, andb_false_r. cbn [orb state].
  apply State_eqb_neq in Hs. rewrite Hs. reflexivity.
Qed.

Lemma run_iteration_idle_witness :
  run_iteration hash_code_example
    {| key_P := false; key_R := false; gTouchTap := false;
       gTouchLocation := {| point_x := 400; point_y := 300 |} |}
    Game_new = Game_new.
Proof.
  apply (run_iteration_idle hash_code_example _ Game_new);
    [reflexivity.. | discriminate].
Defined.

(** X15: the pause key (or a tap) starts a paused game once: while it
    was already down in the previous pass the game stays paused and
    untouched; when it was not, the pass is the one of a game in
    progress, and the state it ends in is not [Paused]. *)
Theorem run_iteration_pause_key (hash_code : TypeId -> N) (inp : Input) (g : Game) :
  state g = Paused -> key_R inp = false ->
  key_P inp || gTouchTap inp = true ->
  (pausePressedLastFrame g = true ->
     run_iteration hash_code inp g =
     {| manager := manager g; state := Paused;
        pausePressedLastFrame := true;
        remainingLives := remainingLives g |}) /\
  (pausePressedLastFrame g = false ->
     run_iteration hash_code inp g =
     play hash_code inp
       {| manager := manager g; state := InProgress;
          pausePressedLastFrame := true;
          remainingLives := remainingLives g |} /\
     state (run_iteration hash_code inp g) <> Paused).
Proof.
  intros Hs HR HP. unfold run_iteration, handle_pause, handle_restart.
  rewrite HP, Hs, HR.
  split; intros Hl; rewrite Hl; cbn [negb State_eqb state orb andb].
  - reflexivity.
  - split; [reflexivity|]. rewrite play_eq. cbv zeta. cbn [state].
    destruct (_ <=? 0); [discriminate|].
    destruct (getAll hash_code TBrick _).1; discriminate.
Qed.

Lemma run_iteration_pause_key_witness :
  state (run_iteration hash_code_example
           {| key_P := true; key_R := false; gTouchTap := false;
              gTouchLocation := {| point_x := 400; point_y := 300 |} |}
           (restart hash_code_example Game_new)) <> Paused.
Proof.
  apply (run_iteration_pause_key hash_code_example _
           (restart hash_code_example Game_new)); reflexivity.
Defined.

(** X16: the restart key, in any state, and a tap on the game-over
    screen make the pass a [restart]: the store is the one [restart]
    builds, three lives remain, and the pass ends in [Paused] without
    running the game. *)
Theorem run_iteration_restarts (hash_code : TypeId -> N) (inp : Input) (g : Game) :
  key_R inp = true \/ (state g = GameOver /\ gTouchTap inp = true) ->
  let g' := run_iteration hash_code inp g in
  manager g' = manager (restart hash_code g) /\
  state g' = Paused /\ remainingLives g' = 3.
Proof.
  intros H. cbv zeta. unfold run_iteration.
  assert (Hr : handle_restart hash_code inp (handle_pause inp g) =
               restart hash_code (handle_pause inp g)).
  { unfold handle_restart. destruct H as [->|[Hs Ht]]; [reflexivity|].
    unfold handle_pause. rewrite Ht, orb_true_r. cbn [state].
    rewrite Hs. cbn [State_eqb].
    destruct (negb (pausePressedLastFrame g)); cbn [State_eqb andb];
      rewrite orb_true_r; reflexivity. }
  rewrite Hr. unfold restart. cbn [state State_eqb negb manager remainingLives].
  repeat split.
Qed.

Lemma run_iteration_restarts_witness :
  state (run_iteration hash_code_example
           {| key_P := false; key_R := false; gTouchTap := true;
              gTouchLocation := {| point_x := 400; point_y := 300 |} |}
           Game_new) = Paused.
Proof.
  apply (run_iteration_restarts hash_code_example _ Game_new).
  right. split; reflexivity.
Defined.

Lemma getAll_entities h T m : entities (getAll h T m).2 = entities m.
Proof. reflexivity. Qed.

Lemma getAll_getAll h T T' m :
  (getAll h T' (getAll h T m).2).1 = (getAll h T' m).1.
Proof. apply (evolves_views eq), evolves_getAll. reflexivity. Qed.

Lemma getAll_create h e m T :
  h T <> h (typeid e) ->
  (getAll h T (create h e m).2).1 = (getAll h T m).1.
Proof.
  intros Hne. unfold getAll, create. cbn [fst snd groupedEntities].
  rewrite lookup_insert_ne by congruence. reflexivity.
Qed.

Lemma getAll_create_same h e m :
  (getAll h (typeid e) (create h e m).2).1 =
  (getAll h (typeid e) m).1 ++ [(create h e m).1].
Proof.
  unfold getAll, create. cbn [fst snd groupedEntities].
  rewrite lookup_insert_eq. reflexivity.
Qed.

Lemma run_iteration_in_progress_eq h inp g :
  state g = InProgress -> key_R inp = false ->
  run_iteration h inp g = play h inp (handle_pause inp g) /\
  manager (handle_pause inp g) = manager g /\
  state (handle_pause inp g) = InProgress /\
  remainingLives (handle_pause inp g) = remainingLives g.
Proof.
  intros Hs HR.
  assert (H1 : manager (handle_pause inp g) = manager g /\
               state (handle_pause inp g) = InProgress /\
               remainingLives (handle_pause inp g) = remainingLives g).
  { unfold handle_pause.
    destruct (key_P inp || gTouchTap inp); cbn [manager state remainingLives];
      rewrite Hs; destruct (negb (pausePressedLastFrame g)); auto. }
  split; [|exact H1]. destruct H1 as (_ & Hs1 & _).
  unfold run_iteration, handle_restart. rewrite HR, Hs1.
  cbn [State_eqb orb andb]. rewrite Hs1. reflexivity.
Qed.

(** X17: a pass through the loop of a game in progress (restart key
    up) takes a life exactly when no ball is left, and then decides the
    state: [GameOver] when no life remains, whether or not bricks are
    left; otherwise [Victory] when no brick is left; otherwise the game
    goes on.  The hash codes of the three entity types differ. *)
Theorem run_iteration_decides_state
    (hash_code : TypeId -> N) (inp : Input) (g : Game) :
  (forall T1 T2, hash_code T1 = hash_code T2 -> T1 = T2) ->
  state g = InProgress -> key_R inp = false ->
  let balls := (getAll hash_code TBall (manager g)).1 in
  let bricks := (getAll hash_code TBrick (manager g)).1 in
  let lives :=
    match balls with
    | [] => Int.sub (remainingLives g) 1
    | _ => remainingLives g
    end in
  let g' := run_iteration hash_code inp g in
  remainingLives g' = lives /\
  state g' = (if lives <=? 0 then GameOver
              else match bricks with [] => Victory | _ => InProgress end).
Proof.
  intros Hinj Hs HR. cbv zeta.
  destruct (run_iteration_in_progress_eq hash_code inp g Hs HR)
    as (-> & Hm & Hs1 & Hl).
  rewrite play_eq. cbv zeta. cbn [remainingLives state].
  rewrite Hm, Hs1, Hl. split; [reflexivity|].
  assert (Hb : forall m1,
             m1 = match (getAll hash_code TBall (manager g)).1 with
                  | [] => (create hash_code
                             (EBall (BallC.new (#f (rect_w gScreenRect) / #f 2)%f32
                                               (#f (rect_h gScreenRect) / #f 2)%f32))
                             (getAll hash_code TBall (manager g)).2).2
                  | _ => (getAll hash_code TBall (manager g)).2
                  end ->
             (getAll hash_code TBrick m1).1 =
             (getAll hash_code TBrick (manager g)).1).
  { intros m1 ->. destruct (getAll hash_code TBall (manager g)).1.
    - rewrite getAll_create; [apply getAll_getAll|].
      intros H. apply Hinj in H. discriminate H.
    - apply getAll_getAll. }
  rewrite (Hb _ eq_refl). reflexivity.
Qed.

Lemma run_iteration_decides_state_witness :
  let g := {| manager := Manager_empty; state := InProgress;
              pausePressedLastFrame := false; remainingLives := 1 |} in
  let g' := run_iteration hash_code_example
              {| key_P := false; key_R := false; gTouchTap := false;
                 gTouchLocation := {| point_x := 400; point_y := 300 |} |} g in
  remainingLives g' = 0 /\ state g' = GameOver.
Proof.
  cbv zeta.
  apply (run_iteration_decides_state hash_code_example
           {| key_P := false; key_R := false; gTouchTap := false;
              gTouchLocation := {| point_x := 400; point_y := 300 |} |}
           {| manager := Manager_empty; state := InProgress;
              pausePressedLastFrame := false; remainingLives := 1 |}
           hash_code_example_inj eq_refl eq_refl).
Defined.

(** ** Invariants of the games [main] can reach *)

Lemma restart_NoDup h g : NoDup (entities (manager (restart h g))).*1.
Proof.
  rewrite restart_entities. apply (bool_decide_unpack _). vm_compute. exact I.
Qed.

Lemma restart_entities_ok h g :
  Forall (λ ae, entity_ok ae.2 /\ destroyed ae.2 = false)
    (entities (manager (restart h g))).
Proof.
  rewrite restart_entities. vm_compute.
  repeat (apply Forall_cons_2;
          [cbv beta iota; split; [|reflexivity];
           first [ split; [intros _; split; discriminate | split; reflexivity]
                 | split; [split; right; reflexivity | reflexivity]
                 | repeat split ]
          |]).
  apply Forall_nil_2.
Qed.

Lemma restart_no_dangling h g : no_dangling (manager (restart h g)).
Proof.
  unfold restart. cbn [manager].
  apply no_dangling_create, no_dangling_create.
  apply for_range_inv; [|apply no_dangling_clear].
  intros iX t Ht. apply for_range_inv; [|exact Ht].
  intros iY t' Ht'. unfold restart_brick.
  match goal with
  | |- context [create h ?e t'] =>
      pose proof (no_dangling_create h e t' Ht') as Hc;
      destruct (create h e t') as [brick m1]
  end.
  apply no_dangling_store, Hc.
Qed.

Lemma store_wf_restart h g :
  (forall T1 T2, h T1 = h T2 -> T1 = T2) -> store_wf h (manager (restart h g)).
Proof.
  intros Hinj. split; [apply restart_NoDup|].
  split; [apply views_match_restart, Hinj | apply restart_no_dangling].
Qed.

Lemma store_wf_play h inp g :
  (forall T1 T2, h T1 = h T2 -> T1 = T2) ->
  store_wf h (manager g) -> store_wf h (manager (play h inp g)).
Proof.
  intros Hinj Hwf. rewrite play_eq. cbv zeta. cbn [manager].
  apply store_wf_refresh, store_wf_collisions, store_wf_Manager_update,
    store_wf_getAll.
  destruct (getAll h TBall (manager g)).1.
  - apply store_wf_create; [exact Hinj | apply store_wf_getAll, Hwf].
  - apply store_wf_getAll, Hwf.
Qed.

Lemma handle_pause_manager inp g : manager (handle_pause inp g) = manager g.
Proof. unfold handle_pause. destruct (key_P inp || gTouchTap inp); reflexivity. Qed.

(** A property of the store that [restart] establishes and a game in
    progress keeps holds after every pass through the loop. *)
Lemma run_iteration_manager_inv (P : Manager -> Prop) h inp g :
  (forall g0, P (manager (restart h g0))) ->
  (forall g0, P (manager g0) -> P (manager (play h inp g0))) ->
  P (manager g) -> P (manager (run_iteration h inp g)).
Proof.
  intros Hrestart Hplay Hg. unfold run_iteration.
  assert (H1 : P (manager (handle_pause inp g)))
    by (rewrite handle_pause_manager; exact Hg).
  assert (H2 : P (manager (handle_restart h inp (handle_pause inp g)))).
  { unfold handle_restart. destruct (key_R inp || _); [apply Hrestart | exact H1]. }
  destruct (negb (State_eqb _ InProgress)); [exact H2 | apply Hplay, H2].
Qed.

Lemma reachable_manager_inv (P : Manager -> Prop) h g :
  P Manager_empty ->
  (forall g0, P (manager (restart h g0))) ->
  (forall inp g0, P (manager g0) -> P (manager (play h inp g0))) ->
  reachable h g -> P (manager g).
Proof.
  intros Hnew Hrestart Hplay. induction 1 as [|g _ _|inp g _ IH].
  - exact Hnew.
  - apply Hrestart.
  - apply run_iteration_manager_inv; auto.
Qed.

(** X18: in every game [main] can reach, whatever the input, the store
    satisfies its representation invariant: owned addresses are
    distinct, each view lists in creation order the objects of its
    type, and no pointer dangles.  The hash codes of the three entity
    types differ. *)
Theorem reachable_store_wf (hash_code : TypeId -> N) (g : Game) :
  (forall T1 T2, hash_code T1 = hash_code T2 -> T1 = T2) ->
  reachable hash_code g -> store_wf hash_code (manager g).
Proof.
  intros Hinj. apply (reachable_manager_inv (store_wf hash_code)).
  - apply store_wf_empty.
  - intros g0. apply store_wf_restart, Hinj.
  - intros inp g0. apply store_wf_play, Hinj.
Qed.

Lemma reachable_store_wf_witness :
  store_wf hash_code_example
    (manager (run_iteration hash_code_example
                {| key_P := true; key_R := false; gTouchTap := false;
                   gTouchLocation := {| point_x := 400; point_y := 300 |} |}
                (restart hash_code_example Game_new))).
Proof.
  apply reachable_store_wf; [exact hash_code_example_inj|].
  apply reachable_iteration, reachable_restart, reachable_new.
Defined.

(** X19: in every game [main] can reach the remaining lives are between
    0 and 3 (the decrement never wraps), and the state is [GameOver]
    exactly when no life remains. *)
Theorem reachable_lives (hash_code : TypeId -> N) (g : Game) :
  reachable hash_code g ->
  0 <= remainingLives g <= 3 /\ (state g = GameOver <-> remainingLives g = 0).
Proof.
  induction 1 as [|g _ _|inp g _ [Hl Hs]].
  - simpl. split; [lia | tauto].
  - simpl. split; [lia|]. split; [discriminate | lia].
  - unfold run_iteration.
    assert (H1 : 0 <= remainingLives (handle_pause inp g) <= 3 /\
                 (state (handle_pause inp g) = GameOver <->
                  remainingLives (handle_pause inp g) = 0)).
    { unfold handle_pause.
      destruct (key_P inp || gTouchTap inp); cbn [state remainingLives];
        [|tauto].
      destruct (negb (pausePressedLastFrame g)); [|tauto].
      destruct (state g) eqn:E; cbn [State_eqb]; try tauto.
      split; [lia|]. split; [discriminate|].
      intros H0. apply Hs in H0. discriminate H0. }
    set (g1 := handle_pause inp g) in *. clearbody g1.
    assert (H2 : 0 <= remainingLives (handle_restart hash_code inp g1) <= 3 /\
                 (state (handle_restart hash_code inp g1) = GameOver <->
                  remainingLives (handle_restart hash_code inp g1) = 0)).
    { unfold handle_restart. destruct (key_R inp || _); [|exact H1].
      simpl. split; [lia|]. split; [discriminate | lia]. }
    set (g2 := handle_restart hash_code inp g1) in *. clearbody g2.
    destruct (State_eqb (state g2) InProgress) eqn:E; cbn [negb]; [|exact H2].
    apply State_eqb_eq in E. destruct H2 as [Hl2 Hs2].
    assert (Hpos : 1 <= remainingLives g2 <= 3).
    { assert (remainingLives g2 <> 0); [|lia].
      intros H0. apply Hs2 in H0. congruence. }
    rewrite play_eq. cbv zeta. cbn [state remainingLives].
    assert (Hsub : Int.sub (remainingLives g2) 1 = remainingLives g2 - 1).
    { apply IntFacts.wrap_in_range.
      unfold Int.in_range, Int.min_int, Int.max_int. lia. }
    rewrite Hsub, E.
    destruct (getAll hash_code TBall (manager g2)).1;
      destruct (_ <=? 0) eqn:Hle;
      try apply Z.leb_le in Hle; try apply Z.leb_gt in Hle;
      (split; [lia|]);
      try (split; [intros _; lia | reflexivity]);
      destruct (getAll hash_code TBrick _).1; (split; [discriminate | lia]).
Qed.

Lemma reachable_lives_witness :
  let g := run_iteration hash_code_example
             {| key_P := true; key_R := false; gTouchTap := false;
                gTouchLocation := {| point_x := 400; point_y := 300 |} |}
             (restart hash_code_example Game_new) in
  0 <= remainingLives g <= 3 /\ (state g = GameOver <-> remainingLives g = 0).
Proof.
  cbv zeta. apply (reachable_lives hash_code_example).
  apply reachable_iteration, reachable_restart, reachable_new.
Defined.

Lemma refresh_view_length h T m :
  (length (getAll h T (refresh m)).1 <= length (getAll h T m).1)%nat.
Proof.
  unfold getAll. cbn [fst refresh groupedEntities]. rewrite lookup_fmap.
  destruct (groupedEntities m !! h T); simpl; [apply length_filter | lia].
Qed.

Lemma Manager_update_NoDup t m :
  NoDup (entities m).*1 -> NoDup (entities (Manager_update t m)).*1.
Proof.
  apply (evolves_NoDup (λ _ _, True)), evolves_Manager_update. auto.
Qed.

Lemma play_one_ball h inp g :
  NoDup (entities (manager g)).*1 /\
  (length (getAll h TBall (manager g)).1 <= 1)%nat ->
  NoDup (entities (manager (play h inp g))).*1 /\
  (length (getAll h TBall (manager (play h inp g))).1 <= 1)%nat.
Proof.
  intros [Hnd Hlen]. rewrite play_eq. cbv zeta. cbn [manager].
  set (m0 := (getAll h TBall (manager g)).2).
  set (m1 := match (getAll h TBall (manager g)).1 with
             | [] => _ | _ => m0 end).
  assert (H1 : NoDup (entities m1).*1 /\
               (length (getAll h TBall m1).1 <= 1)%nat).
  { subst m1. destruct (getAll h TBall (manager g)).1 eqn:Eb.
    - split; [apply NoDup_create, Hnd|].
      rewrite (getAll_create_same h (EBall _)). cbn [typeid]. subst m0.
      rewrite getAll_getAll, Eb. simpl. lia.
    - split; [exact Hnd|]. subst m0. rewrite getAll_getAll, Eb. exact Hlen. }
  clearbody m1. destruct H1 as [Hnd1 Hlen1].
  set (m3 := Manager_update (gTouchLocation inp) (getAll h TBrick m1).2).
  assert (Hnd3 : NoDup (entities m3).*1) by (apply Manager_update_NoDup, Hnd1).
  assert (Hv3 : (getAll h TBall m3).1 = (getAll h TBall m1).1)
    by apply getAll_getAll.
  pose proof (collisions_evolves h m3 Hnd3) as Hev.
  split.
  - apply NoDup_filter_addresses. eapply evolves_NoDup; eassumption.
  - etransitivity; [apply refresh_view_length|].
    rewrite (evolves_views _ _ _ _ _ Hev), Hv3. exact Hlen1.
Qed.

(** X20: in every game [main] can reach there is at most one ball in
    the ball view: a ball is spawned only by [restart] and when none is
    left.  The hash codes of the three entity types differ. *)
Theorem reachable_at_most_one_ball (hash_code : TypeId -> N) (g : Game) :
  (forall T1 T2, hash_code T1 = hash_code T2 -> T1 = T2) ->
  reachable hash_code g ->
  (length (getAll hash_code TBall (manager g)).1 <= 1)%nat.
Proof.
  intros Hinj Hr.
  apply (reachable_manager_inv
           (λ m, NoDup (entities m).*1 /\
                 (length (getAll hash_code TBall m).1 <= 1)%nat)
           hash_code g); [| | |exact Hr].
  - split; [apply NoDup_nil_2|].
    unfold getAll, Manager_empty. cbn [fst groupedEntities].
    rewrite lookup_empty. simpl. lia.
  - intros g0. split; [apply restart_NoDup|].
    rewrite (views_match_restart hash_code Hinj g0 TBall), restart_entities.
    vm_compute. lia.
  - intros inp g0. apply play_one_ball.
Qed.

Lemma reachable_at_most_one_ball_witness :
  (length (getAll hash_code_example TBall
             (manager (run_iteration hash_code_example
                {| key_P := true; key_R := false; gTouchTap := false;
                   gTouchLocation := {| point_x := 400; point_y := 300 |} |}
                (restart hash_code_example Game_new)))).1 <= 1)%nat.
Proof.
  apply reachable_at_most_one_ball; [exact hash_code_example_inj|].
  apply reachable_iteration, reachable_restart, reachable_new.
Defined.

(** ** What stays true of every object *)

Lemma solveBoundCollisions_speed b :
  diagonal_speed b -> diagonal_speed (solveBoundCollisions b).
Proof.
  unfold diagonal_speed, solveBoundCollisions. intros [Hx Hy].
  repeat match goal with |- context [if ?c then _ else _] => destruct c end;
    cbn [ball_velocity vec_x vec_y ball_set_velocity_x ball_set_velocity_y
         ball_set_destroyed]; tauto.
Qed.

Lemma ball_after_brick_hit_speed mBrick mBall :
  diagonal_speed mBall -> diagonal_speed (ball_after_brick_hit mBrick mBall).
Proof.
  unfold diagonal_speed, ball_after_brick_hit. intros [Hx Hy].
  repeat match goal with |- context [if ?c then _ else _] => destruct c end;
    cbn [ball_velocity vec_x vec_y ball_set_velocity_x ball_set_velocity_y];
    tauto.
Qed.

Lemma solvePaddleBallCollision_speed mPaddle mBall :
  diagonal_speed mBall ->
  diagonal_speed (solvePaddleBallCollision mPaddle mBall).
Proof.
  unfold diagonal_speed, solvePaddleBallCollision. intros [Hx Hy].
  repeat match goal with |- context [if ?c then _ else _] => destruct c end;
    cbn [ball_velocity vec_x vec_y ball_set_velocity_x ball_set_velocity_y];
    tauto.
Qed.

Lemma Entity_update_ok t e : entity_ok e -> entity_ok (Entity_update t e).
Proof.
  destruct e as [b|p|k]; cbn [Entity_update entity_ok].
  - intros [Hs Hr]. unfold Ball_update. split.
    + apply solveBoundCollisions_speed. exact Hs.
    + rewrite solveBoundCollisions_circle. exact Hr.
  - intros (Hv & Hy & Hw & Hh). unfold Paddle_update, move.
    cbn [paddle_velocity paddle_rect rect_shape pos_y rect_width rect_height].
    rewrite Hv, Hy. cbn [vec_y].
    split; [reflexivity|]. split; [vm_compute; reflexivity|].
    split; assumption.
  - intros H. exact H.
Qed.

Lemma solveBrickBallCollision_ok mBrick mBall :
  entity_ok (EBrick mBrick) -> entity_ok (EBall mBall) ->
  entity_ok (EBrick (solveBrickBallCollision mBrick mBall).1) /\
  entity_ok (EBall (solveBrickBallCollision mBrick mBall).2).
Proof.
  intros Hk Hb. destruct (isIntersecting mBrick mBall) eqn:Hi.
  - rewrite (solveBrickBallCollision_hit _ _ Hi). cbn [fst snd]. split.
    + destruct Hk as (Hhits & Hw & Hh).
      cbn [entity_ok brick_after_hit brick_destroyed requiredHits brick_rect].
      split; [|split; assumption].
      intros Hd. apply orb_false_iff in Hd. destruct Hd as [Hd Hle].
      specialize (Hhits Hd). apply Z.leb_gt in Hle.
      assert (Hs : Int.sub (requiredHits mBrick) 1 = requiredHits mBrick - 1).
      { apply IntFacts.wrap_in_range.
        unfold Int.in_range, Int.min_int, Int.max_int. lia. }
      rewrite Hs in *. lia.
    + destruct Hb as [Hs Hr]. split.
      * apply ball_after_brick_hit_speed, Hs.
      * unfold ball_after_brick_hit.
        destruct (F32.abs _ <? F32.abs _)%f32; exact Hr.
  - rewrite (solveBrickBallCollision_miss _ _ Hi). split; assumption.
Qed.

Lemma solvePaddleBallCollision_ok mPaddle mBall :
  entity_ok (EBall mBall) ->
  entity_ok (EBall (solvePaddleBallCollision mPaddle mBall)).
Proof.
  intros [Hs Hr]. split; [apply solvePaddleBallCollision_speed, Hs|].
  unfold solvePaddleBallCollision.
  destruct (negb (isIntersecting mPaddle mBall)); exact Hr.
Qed.

Lemma deref_ok m p e :
  Forall (λ ae, entity_ok ae.2) (entities m) -> deref m p = Some e ->
  entity_ok e.
Proof.
  intros Hall Hp. apply deref_in_Some in Hp. rewrite Forall_forall in Hall.
  apply (Hall _ Hp).
Qed.

Lemma store_ok p new m :
  Forall (λ ae, entity_ok ae.2) (entities m) -> entity_ok new ->
  Forall (λ ae, entity_ok ae.2) (entities (store p (λ _, new) m)).
Proof.
  intros Hall Hnew. cbn [store entities]. unfold store_in.
  apply Forall_fmap. eapply Forall_impl; [exact Hall|].
  intros [a e] He. cbn. destruct (decide (a = p)); [exact Hnew | exact He].
Qed.

Lemma collide_brick_ok pBrick pBall m :
  Forall (λ ae, entity_ok ae.2) (entities m) ->
  Forall (λ ae, entity_ok ae.2) (entities (collide_brick pBrick pBall m)).
Proof.
  intros Hall. unfold collide_brick.
  destruct (deref m pBrick) as [[| |k]|] eqn:Ek; try exact Hall.
  destruct (deref m pBall) as [[b| |]|] eqn:Eb; try exact Hall.
  pose proof (solveBrickBallCollision_ok k b
                (deref_ok _ _ _ Hall Ek) (deref_ok _ _ _ Hall Eb)) as [Hk Hb].
  destruct (solveBrickBallCollision k b) as [k' b'].
  apply store_ok; [apply store_ok|]; assumption.
Qed.

Lemma collide_paddle_ok pPaddle pBall m :
  Forall (λ ae, entity_ok ae.2) (entities m) ->
  Forall (λ ae, entity_ok ae.2) (entities (collide_paddle pPaddle pBall m)).
Proof.
  intros Hall. unfold collide_paddle.
  destruct (deref m pPaddle) as [[|pd|]|] eqn:Ek; try exact Hall.
  destruct (deref m pBall) as [[b| |]|] eqn:Eb; try exact Hall.
  apply store_ok; [exact Hall|].
  apply solvePaddleBallCollision_ok, (deref_ok _ _ _ Hall Eb).
Qed.

Lemma forEach_entities_inv (P : list (addr * Entity) -> Prop) h T
    (f : addr -> Manager -> Manager) m :
  (forall p m, P (entities m) -> P (entities (f p m))) ->
  P (entities m) -> P (entities (forEach h T f m)).
Proof.
  intros Hf Hm. unfold forEach.
  pose proof (getAll_entities h T m) as He.
  destruct (getAll h T m) as [v m0]. cbn [snd] in He.
  rewrite <- He in Hm. clear He. revert m0 Hm.
  induction v as [|p v IH]; intros m0 Hm; simpl; auto.
Qed.

Lemma collisions_ok h m :
  Forall (λ ae, entity_ok ae.2) (entities m) ->
  Forall (λ ae, entity_ok ae.2) (entities (collisions h m)).
Proof.
  unfold collisions. apply forEach_entities_inv. intros pBall m1 H1.
  apply forEach_entities_inv; [intros; apply collide_paddle_ok; assumption|].
  apply forEach_entities_inv; [intros; apply collide_brick_ok; assumption|].
  exact H1.
Qed.

Lemma play_entities_ok h inp g :
  Forall (λ ae, entity_ok ae.2 /\ destroyed ae.2 = false)
    (entities (manager g)) ->
  Forall (λ ae, entity_ok ae.2 /\ destroyed ae.2 = false)
    (entities (manager (play h inp g))).
Proof.
  intros Hall.
  assert (Hok : Forall (λ ae, entity_ok ae.2) (entities (manager g)))
    by (eapply Forall_impl; [exact Hall | intros ? [? _]; assumption]).
  rewrite play_eq. cbv zeta. cbn [manager].
  set (m1 := match (getAll h TBall (manager g)).1 with
             | [] => _ | _ => _ end).
  assert (H1 : Forall (λ ae, entity_ok ae.2) (entities m1)).
  { subst m1. destruct (getAll h TBall (manager g)).1; [|exact Hok].
    cbn [create snd entities]. unfold emplace_back_entity.
    apply Forall_app. split; [exact Hok|]. apply Forall_singleton.
    cbn [snd entity_ok BallC.new ball_circle radius]. split; [|reflexivity].
    split; right; reflexivity. }
  clearbody m1.
  assert (H3 : Forall (λ ae, entity_ok ae.2)
                 (entities (collisions h
                    (Manager_update (gTouchLocation inp)
                       (getAll h TBrick m1).2)))).
  { apply collisions_ok. cbn [Manager_update entities].
    rewrite getAll_entities. apply Forall_fmap.
    eapply Forall_impl; [exact H1|]. intros [a e] He.
    apply Entity_update_ok, He. }
  apply Forall_forall. intros ae Hin. cbn [refresh entities] in Hin.
  apply list_elem_of_filter in Hin. destruct Hin as [Halive Hin].
  rewrite Forall_forall in H3. split; [apply (H3 _ Hin) | exact Halive].
Qed.

(** X21: in every game [main] can reach, between two passes of the
    loop, no object of the store is marked destroyed; every ball has
    the default radius and moves along a diagonal at [defVelocity] per
    axis; every paddle has the default size, no velocity, and sits on
    the row [height - 50]; every brick has the default size and
    requires between one and three hits. *)
Theorem reachable_entities_ok (hash_code : TypeId -> N) (g : Game) :
  reachable hash_code g ->
  Forall (λ ae, entity_ok ae.2 /\ destroyed ae.2 = false)
    (entities (manager g)) /\
  (forall p k, deref (manager g) p = Some (EBrick k) ->
     brick_destroyed k = false /\ 1 <= requiredHits k <= 3).
Proof.
  intros Hr.
  assert (Hall : Forall (λ ae, entity_ok ae.2 /\ destroyed ae.2 = false)
                   (entities (manager g))).
  { apply (reachable_manager_inv
             (λ m, Forall (λ ae, entity_ok ae.2 /\ destroyed ae.2 = false)
                     (entities m)) hash_code g); [| | |exact Hr].
    - apply Forall_nil_2.
    - apply restart_entities_ok.
    - intros inp g0. apply play_entities_ok. }
  split; [exact Hall|].
  intros p k Hp. apply deref_in_Some in Hp. rewrite Forall_forall in Hall.
  destruct (Hall _ Hp) as [[Hhits _] Hd]. cbn in Hd. auto.
Qed.

Lemma reachable_entities_ok_witness :
  Forall (λ ae, entity_ok ae.2 /\ destroyed ae.2 = false)
    (entities (manager (run_iteration hash_code_example
       {| key_P := true; key_R := false; gTouchTap := false;
          gTouchLocation := {| point_x := 400; point_y := 300 |} |}
       (restart hash_code_example Game_new)))).
Proof.
  apply (reachable_entities_ok hash_code_example).
  apply reachable_iteration, reachable_restart, reachable_new.
Defined.
